(** * p-throttle-ts: the throttling engine of [src/index.ts]

    A shallow embedding of [pThrottle] and of the throttled wrapper it
    builds: the two delay calculators ([windowedDelay], [strictDelay]), the
    pending-call registry ([queue]), [abort], [queueSize] and the
    [isEnabled] switch.

    Modelling choices.
    - Finite JavaScript numbers are taken at integer precision ([Z]):
      [Date.now()] is an integral number of milliseconds, and [limit] and
      [interval] are integral in every use of the library.  The non-finite
      numbers only matter to the validation at the top of [pThrottle].
    - [Date.now()] is an argument [now] of the functions that read it.
    - The variables captured by the closures ([queue], [currentTick],
      [activeCount], [strictTicks]) live in a store of closure records;
      a throttled wrapper holds a reference into that store.
    - The host's timers and promises are two more stores, so that
      [setTimeout], [clearTimeout], [resolve] and [reject] are state
      updates. *)

From Stdlib Require Import ZArith Lia List String.
From stdpp Require Import base decidable numbers option list sets.

Local Open Scope Z_scope.

(** ** JavaScript numbers, as far as [Number.isFinite] tells them apart *)

Inductive number : Type :=
| Finite (z : Z)
| PosInfinity
| NegInfinity
| NaN.

Definition isFinite (n : number) : bool :=
  match n with
  | Finite _ => true
  | _ => false
  end.

(** A finite and positive number, the domain the documentation speaks of. *)
Definition finite_positive (n : number) : bool :=
  match n with
  | Finite z => bool_decide (0 < z)
  | _ => false
  end.

(** ** [interface Options] *)

Module Options.
Record t : Type := make {
  limit : number;
  interval : number;
  strict : option bool   (* [strict?: boolean] *)
}.
End Options.

(** ** A JavaScript [Map] from timer handles to reject functions

    Entries are kept in insertion order.  A key is a timer handle, a value
    is the promise whose [reject] function the entry stores. *)

Definition Map : Type := list (nat * nat).

Fixpoint Map_set (k v : nat) (m : Map) : Map :=
  match m with
  | [] => [(k, v)]
  | (k', v') :: m' =>
      if decide (k = k') then (k, v) :: m' else (k', v') :: Map_set k v m'
  end.

Fixpoint Map_get (k : nat) (m : Map) : option nat :=
  match m with
  | [] => None
  | (k', v') :: m' => if decide (k = k') then Some v' else Map_get k m'
  end.

Fixpoint Map_delete (k : nat) (m : Map) : Map :=
  match m with
  | [] => []
  | (k', v') :: m' =>
      if decide (k = k') then Map_delete k m' else (k', v') :: Map_delete k m'
  end.

Definition Map_keys (m : Map) : list nat := m.*1.

Definition Map_size (m : Map) : nat := length m.

(** ** The variables captured by one invocation of [pThrottle(options)] *)

Record Throttle : Type := mkThrottle {
  limit : Z;
  interval : Z;
  strict : bool;
  queue : Map;
  currentTick : Z;
  activeCount : Z;
  strictTicks : list Z
}.

Definition with_window (tick count : Z) (th : Throttle) : Throttle :=
  mkThrottle (limit th) (interval th) (strict th) (queue th)
             tick count (strictTicks th).

Definition with_strictTicks (ticks : list Z) (th : Throttle) : Throttle :=
  mkThrottle (limit th) (interval th) (strict th) (queue th)
             (currentTick th) (activeCount th) ticks.

Definition with_queue (q : Map) (th : Throttle) : Throttle :=
  mkThrottle (limit th) (interval th) (strict th) q
             (currentTick th) (activeCount th) (strictTicks th).

(** The state right after [pThrottle] has validated its options. *)
Definition fresh_throttle (l i : Z) (s : bool) : Throttle :=
  mkThrottle l i s [] 0 0 [].

(** ** The delay calculators *)

(** [function windowedDelay()], lines 72-89. *)
Definition windowedDelay (now : Z) (th : Throttle) : Z * Throttle :=
  if decide (now - currentTick th > interval th) then
    (0, with_window now 1 th)
  else
    let th' :=
      if decide (activeCount th < limit th) then
        with_window (currentTick th) (activeCount th + 1) th
      else
        with_window (currentTick th + interval th) 1 th in
    (currentTick th' - now, th').

(** The three branches as the documentation words them: a call admitted
    into the current window is given the delay 0. *)
Definition windowedDelay_spec (now : Z) (th : Throttle) : Z * Throttle :=
  if decide (now - currentTick th > interval th) then
    (0, with_window now 1 th)
  else if decide (activeCount th < limit th) then
    (0, with_window (currentTick th) (activeCount th + 1) th)
  else
    (currentTick th + interval th - now,
     with_window (currentTick th + interval th) 1 th).

(** [function strictDelay()], lines 93-110.  [strictTicks.shift()] of an
    empty array is [undefined], and [undefined + interval] is [NaN]: that
    case leaves the integers and is the [None] of the model.  It needs
    [limit <= 0]. *)
Definition strictDelay (now : Z) (th : Throttle) : option (Z * Throttle) :=
  if decide (Z.of_nat (length (strictTicks th)) < limit th) then
    Some (0, with_strictTicks (strictTicks th ++ [now]) th)
  else
    match strictTicks th with
    | [] => None
    | oldest :: rest =>
        let earliestTime := oldest + interval th in
        if decide (now >= earliestTime) then
          Some (0, with_strictTicks (rest ++ [now]) th)
        else
          Some (earliestTime - now,
                with_strictTicks (rest ++ [earliestTime]) th)
    end.

(** [const getDelay = strict ? strictDelay : windowedDelay]. *)
Definition getDelay (now : Z) (th : Throttle) : option (Z * Throttle) :=
  if strict th then strictDelay now th else Some (windowedDelay now th).

(** A sequence of calls of [strictDelay], one per reading [now] of the
    clock, with the effective timestamp [now + delay] of each call. *)
Fixpoint strictRun (nows : list Z) (th : Throttle)
  : option (list Z * Throttle) :=
  match nows with
  | [] => Some ([], th)
  | now :: rest =>
      match strictDelay now th with
      | None => None
      | Some (d, th1) =>
          match strictRun rest th1 with
          | None => None
          | Some (stamps, th2) => Some ((now + d) :: stamps, th2)
          end
      end
  end.

(** A sequence of calls of [windowedDelay], with the delay of each. *)
Fixpoint windowedRun (nows : list Z) (th : Throttle) : list Z * Throttle :=
  match nows with
  | [] => ([], th)
  | now :: rest =>
      let '(d, th1) := windowedDelay now th in
      let '(ds, th2) := windowedRun rest th1 in
      (d :: ds, th2)
  end.

(** The timestamps of [stamps] inside the window [[t, t + len)]. *)
Definition in_window (t len : Z) (stamps : list Z) : list Z :=
  filter (fun e => t <= e < t + len) stamps.

(** ** The host: outcomes of the wrapped function, promises, timers *)

Section Engine.
Variables Arg Val Exn : Type.

(** What [function_.apply(this, args)] does: it returns a value (which may
    itself be a promise) or throws. *)
Inductive Outcome : Type :=
| Returns (v : Val)
| Throws (e : Exn).

Inductive Error : Type :=
| TypeError (msg : string)
| AbortError                (* [new AbortError()] *)
| Thrown (e : Exn).         (* whatever the wrapped function threw *)

(** A call either returns or throws synchronously. *)
Inductive Completion (A : Type) : Type :=
| Normal (a : A)
| Throw (e : Error).

(** A promise.  [Resolved v] is a promise whose [resolve] was called with
    [v]: fulfilled with [v], or following [v] when [v] is a promise. *)
Inductive Settlement : Type :=
| Pending
| Resolved (v : Val)
| Rejected (e : Error).

(** A timer created by [setTimeout(execute, ms)].  The callback [execute]
    is the closure of lines 131-135: it knows the wrapped function, the
    arguments, the [resolve] function of its promise and the [queue] it
    deletes its own handle from. *)
Record Timer : Type := mkTimer {
  ms : Z;
  timer_closure : nat;
  timer_function : Arg -> Outcome;
  timer_args : Arg;
  timer_promise : nat
}.

(** Closures are never freed, a handle is an index into [timers] ([None]
    once the timer has fired or was cleared), a promise an index into
    [promises]. *)
Record World : Type := mkWorld {
  closures : list Throttle;
  timers : list (option Timer);
  promises : list Settlement
}.

Definition empty_world : World := mkWorld [] [] [].

(** The throttled function: the closure state it shares with every other
    function throttled by the same [pThrottle(options)], the function it
    wraps and its own [isEnabled] property. *)
Record Wrapper : Type := mkWrapper {
  closure : nat;
  function_ : Arg -> Outcome;
  isEnabled : bool
}.

Definition set_isEnabled (b : bool) (wr : Wrapper) : Wrapper :=
  mkWrapper (closure wr) (function_ wr) b.

(** [resolve] and [reject] of a promise that is no longer pending do
    nothing. *)
Definition resolve (p : nat) (v : Val) (ps : list Settlement)
  : list Settlement :=
  match ps !! p with
  | Some Pending => <[p := Resolved v]> ps
  | _ => ps
  end.

Definition reject (p : nat) (e : Error) (ps : list Settlement)
  : list Settlement :=
  match ps !! p with
  | Some Pending => <[p := Rejected e]> ps
  | _ => ps
  end.

Definition clearTimeout (t : nat) (ts : list (option Timer))
  : list (option Timer) :=
  <[t := None]> ts.

(** [(async () => body)()]: the body runs at once, and what it returns or
    throws settles the promise that the call returns. *)
Definition async_call (body : Outcome) : Settlement :=
  match body with
  | Returns v => Resolved v
  | Throws e => Rejected (Thrown e)
  end.

(** ** [pThrottle], lines 49-70: validation and the fresh closure *)

Definition pThrottle (o : Options.t) (W : World)
  : Completion (World * nat) :=
  match Options.limit o with
  | Finite l =>
      match Options.interval o with
      | Finite i =>
          let s := default false (Options.strict o) in
          Normal _
            (mkWorld (closures W ++ [fresh_throttle l i s])
                     (timers W) (promises W),
             length (closures W))
      | _ => Throw _ (TypeError "Expected `interval` to be a finite number")
      end
  | _ => Throw _ (TypeError "Expected `limit` to be a finite number")
  end.

(** The function returned by [pThrottle(options)], lines 114-162, applied
    to [function_]: a wrapper over the closure [c], enabled. *)
Definition wrap (c : nat) (f : Arg -> Outcome) : Wrapper :=
  mkWrapper c f true.

(** ** [throttled(...args)], lines 121-141 *)

Definition throttled (wr : Wrapper) (now : Z) (a : Arg) (W : World)
  : option (World * Completion nat) :=
  if negb (isEnabled wr) then
    Some (mkWorld (closures W) (timers W)
                  (promises W ++ [async_call (function_ wr a)]),
          Normal _ (length (promises W)))
  else
    match closures W !! closure wr with
    | None => None
    | Some th =>
        match getDelay now th with
        | None => None
        | Some (d, th1) =>
            let p := length (promises W) in
            let t := length (timers W) in
            let execute := mkTimer d (closure wr) (function_ wr) a p in
            Some (mkWorld
                    (<[closure wr :=
                         with_queue (Map_set t p (queue th1)) th1]>
                       (closures W))
                    (timers W ++ [Some execute])
                    (promises W ++ [Pending]),
                  Normal _ p)
        end
    end.

(** The timer [t] fires and runs [execute], lines 131-135.  The second
    component is the exception that escapes from the callback, if any:
    when [function_] throws, neither [resolve] nor [queue.delete] runs. *)
Definition fire (t : nat) (W : World) : option (World * option Exn) :=
  match timers W !! t with
  | Some (Some tm) =>
      let ts := <[t := None]> (timers W) in
      match timer_function tm (timer_args tm) with
      | Throws e => Some (mkWorld (closures W) ts (promises W), Some e)
      | Returns v =>
          match closures W !! timer_closure tm with
          | None => None
          | Some th =>
              Some (mkWorld
                      (<[timer_closure tm :=
                           with_queue (Map_delete t (queue th)) th]>
                         (closures W))
                      ts
                      (resolve (timer_promise tm) v (promises W)),
                    None)
          end
      end
  | _ => None
  end.

(** ** [throttled.abort], lines 143-151 *)

(** One turn of the loop over [queue.keys()]; [queue.get(timeout)] is the
    value of the entry being visited. *)
Definition abort_entry (host : list (option Timer) * list Settlement)
                       (entry : nat * nat)
  : list (option Timer) * list Settlement :=
  (clearTimeout entry.1 host.1, reject entry.2 AbortError host.2).

Definition abort (wr : Wrapper) (W : World) : option World :=
  match closures W !! closure wr with
  | None => None
  | Some th =>
      let host := foldl abort_entry (timers W, promises W) (queue th) in
      Some (mkWorld
              (<[closure wr := with_strictTicks [] (with_queue [] th)]>
                 (closures W))
              host.1 host.2)
  end.

(** ** The getter [queueSize], lines 155-159 *)

Definition queueSize (wr : Wrapper) (W : World) : option nat :=
  match closures W !! closure wr with
  | None => None
  | Some th => Some (Map_size (queue th))
  end.

(** The delay the next call through [wr] would be given at [now]. *)
Definition nextDelay (wr : Wrapper) (now : Z) (W : World) : option Z :=
  match closures W !! closure wr with
  | None => None
  | Some th => fst <$> getDelay now th
  end.

(** [n] calls through [wr], one per reading of the clock. *)
Fixpoint calls (wr : Wrapper) (nows : list Z) (a : Arg) (W : World)
  : option World :=
  match nows with
  | [] => Some W
  | now :: rest =>
      match throttled wr now a W with
      | None => None
      | Some (W1, _) => calls wr rest a W1
      end
  end.

End Engine.

Arguments Returns {Val Exn} v.
Arguments Throws {Val Exn} e.
Arguments TypeError {Exn} msg.
Arguments AbortError {Exn}.
Arguments Thrown {Exn} e.
Arguments Normal {Exn A} a.
Arguments Throw {Exn A} e.
Arguments Pending {Val Exn}.
Arguments Resolved {Val Exn} v.
Arguments Rejected {Val Exn} e.
Arguments mkTimer {Arg Val Exn}.
Arguments ms {Arg Val Exn}.
Arguments timer_closure {Arg Val Exn}.
Arguments timer_function {Arg Val Exn}.
Arguments timer_args {Arg Val Exn}.
Arguments timer_promise {Arg Val Exn}.
Arguments mkWorld {Arg Val Exn}.
Arguments closures {Arg Val Exn}.
Arguments timers {Arg Val Exn}.
Arguments promises {Arg Val Exn}.
Arguments empty_world {Arg Val Exn}.
Arguments mkWrapper {Arg Val Exn}.
Arguments closure {Arg Val Exn}.
Arguments function_ {Arg Val Exn}.
Arguments isEnabled {Arg Val Exn}.
Arguments set_isEnabled {Arg Val Exn}.
Arguments resolve {Val Exn}.
Arguments reject {Val Exn}.
Arguments clearTimeout {Arg Val Exn}.
Arguments async_call {Val Exn}.
Arguments pThrottle {Arg Val Exn}.
Arguments wrap {Arg Val Exn}.
Arguments throttled {Arg Val Exn}.
Arguments fire {Arg Val Exn}.
Arguments abort_entry {Arg Val Exn}.
Arguments abort {Arg Val Exn}.
Arguments queueSize {Arg Val Exn}.
Arguments nextDelay {Arg Val Exn}.
Arguments calls {Arg Val Exn}.

(** ** What the loop of [abort] does to each store *)

Definition clear_all {Arg Val Exn} (q : Map)
    (ts : list (option (Timer Arg Val Exn)))
  : list (option (Timer Arg Val Exn)) :=
  foldl (fun ts entry => clearTimeout entry.1 ts) ts q.

Definition reject_all {Val Exn} (q : Map) (ps : list (Settlement Val Exn))
  : list (Settlement Val Exn) :=
  foldl (fun ps entry => reject entry.2 AbortError ps) ps q.

(** A promise after [reject(new AbortError())]. *)
Definition aborted {Val Exn} (s : Settlement Val Exn) : Settlement Val Exn :=
  match s with
  | Pending => Rejected AbortError
  | _ => s
  end.

(** ** Properties of runs, and worlds the engine can be in *)

(** Every stamp is at least [len] after the stamp [n] places before it. *)
Definition spaced (n : nat) (len : Z) (stamps : list Z) : Prop :=
  forall k a b,
    stamps !! k = Some a -> stamps !! (k + n)%nat = Some b -> a + len <= b.

(** Two closure states that [strictDelay] cannot tell apart. *)
Definition same_strict (th1 th2 : Throttle) : Prop :=
  limit th1 = limit th2 /\ interval th1 = interval th2 /\
  strictTicks th1 = strictTicks th2.

(** The handles and promises a queue mentions exist, and no handle is
    queued twice: [setTimeout] returns a new handle at every call. *)
Definition queue_ok (n_timers n_promises : nat) (q : Map) : Prop :=
  NoDup (Map_keys q) /\
  Forall (fun entry =>
            (entry.1 < n_timers)%nat /\ (entry.2 < n_promises)%nat) q.

Definition world_ok {Arg Val Exn} (W : World Arg Val Exn) : Prop :=
  Forall (fun th =>
            queue_ok (length (timers W)) (length (promises W)) (queue th))
         (closures W).

#[global] Instance queue_ok_dec n m q : Decision (queue_ok n m q).
Proof. unfold queue_ok. apply _. Defined.

#[global] Instance world_ok_dec {Arg Val Exn} (W : World Arg Val Exn)
  : Decision (world_ok W).
Proof. unfold world_ok. apply _. Defined.

(** ** Concrete inputs *)

(** The scenario of the test "limits after pause in strict mode": one call,
    a pause of 40 ms, eleven calls. *)
Definition pause_nows : list Z := 0 :: replicate 11 40.

Definition strict_10_100 : Throttle := fresh_throttle 10 100 true.
Definition windowed_2_100 : Throttle := fresh_throttle 2 100 false.

(** The windowed state after one call at time 1000. *)
Definition windowed_after_one : Throttle :=
  (windowedRun [1000] windowed_2_100).2.

(** Options with a [limit] of 0 and an [interval] of -5. *)
Definition nonpositive_options : Options.t :=
  Options.make (Finite 0) (Finite (-5)) None.

Definition options_1_100 (s : bool) : Options.t :=
  Options.make (Finite 1) (Finite 100) (Some s).

Definition returns_7 (_ : unit) : Outcome Z string := Returns 7.
Definition throws_boom (_ : unit) : Outcome Z string := Throws "boom"%string.

(** The world after [pThrottle({limit: 1, interval: 100, strict})] in an
    empty world; its closure has the reference 0. *)
Definition world_1_100 (s : bool) : World unit Z string :=
  mkWorld [fresh_throttle 1 100 s] [] [].

(** One call at time 1000 through a wrapper of closure 0. *)
Definition after_call (s : bool) (f : unit -> Outcome Z string)
  : option (World unit Z string) :=
  calls (wrap 0%nat f) [1000] tt (world_1_100 s).

(** The same, and then the timer of that call fires. *)
Definition after_fire (s : bool) (f : unit -> Outcome Z string)
  : option (World unit Z string) :=
  W ← after_call s f; fst <$> fire 0%nat W.

(** A disabled wrapper. *)
Definition disabled_wrapper (f : unit -> Outcome Z string)
  : Wrapper unit Z string :=
  set_isEnabled false (wrap 0%nat f).

(** The world with one pending call: a windowed engine (limit 1, interval
    100) after one call at time 1000 to a function that returns 7. *)
Definition pending_closure : Throttle :=
  mkThrottle 1 100 false [(0%nat, 0%nat)] 1000 1 [].

Definition pending_world : World unit Z string :=
  mkWorld [pending_closure]
          [Some (mkTimer 0 0%nat returns_7 tt 0%nat)]
          [Pending].

(** The world of a strict engine (limit 1, interval 100) after one call at
    time 1000 whose timer has fired: nothing is queued. *)
Definition fired_strict_world : World unit Z string :=
  mkWorld [mkThrottle 1 100 true [] 0 0 [1000]] [None] [Resolved 7].

(** Two functions throttled by the same [pThrottle(options)]. *)
Definition first_wrapper : Wrapper unit Z string := wrap 0%nat returns_7.
Definition second_wrapper : Wrapper unit Z string := wrap 0%nat throws_boom.

(** A function throttled by another invocation of [pThrottle], and the world
    after the two invocations. *)
Definition other_wrapper : Wrapper unit Z string := wrap 1%nat throws_boom.

Definition two_closures : World unit Z string :=
  mkWorld [fresh_throttle 1 100 false; fresh_throttle 1 100 true] [] [].

(** ** More properties of runs *)

(** A list of timestamps that never goes back. *)
Definition nondecreasing (l : list Z) : Prop :=
  forall i j a b,
    (i <= j)%nat -> l !! i = Some a -> l !! j = Some b -> a <= b.

(** The effective timestamps of a windowed run: [now + delay], call by
    call. *)
Definition windowedStamps (nows : list Z) (th : Throttle) : list Z :=
  zip_with Z.add nows (windowedRun nows th).1.

(** The time at which the host runs a callback given to [setTimeout] at
    [now] with the delay [d], at the earliest: a negative delay is no
    delay. *)
Definition earliest_run (now d : Z) : Z := Z.max now (now + d).

(** How each stamp is made: the first [n] calls are stamped with the clock,
    a later one with the clock or with [len] past the stamp [n] calls
    before it, whichever is later. *)
Definition stamped (n : nat) (len : Z) (nows stamps : list Z) : Prop :=
  forall k now r,
    nows !! k = Some now -> stamps !! k = Some r ->
    ((k < n)%nat -> r = now) /\
    ((n <= k)%nat ->
     exists a, stamps !! (k - n)%nat = Some a /\ r = Z.max now (a + len)).

(** A sequence of calls of [getDelay], whichever calculator it is, with the
    delay of each. *)
Fixpoint delayRun (nows : list Z) (th : Throttle)
  : option (list Z * Throttle) :=
  match nows with
  | [] => Some ([], th)
  | now :: rest =>
      match getDelay now th with
      | None => None
      | Some (d, th1) =>
          match delayRun rest th1 with
          | None => None
          | Some (ds, th2) => Some (d :: ds, th2)
          end
      end
  end.

(** The delays of a list of timers, in the order of their handles. *)
Definition timer_delays {Arg Val Exn}
    (ts : list (option (Timer Arg Val Exn))) : list (option Z) :=
  (fun t : option (Timer Arg Val Exn) => ms <$> t) <$> ts.

(** ** Worlds the engine reaches *)

(** The worlds reached from the empty one by invocations of [pThrottle],
    calls through wrappers, timers that fire and [abort]s, in any order. *)
Inductive reachable {Arg Val Exn} : World Arg Val Exn -> Prop :=
| reach_empty : reachable empty_world
| reach_pThrottle o W W' c :
    reachable W -> pThrottle o W = Normal (W', c) -> reachable W'
| reach_throttled wr now a W W' r :
    reachable W -> throttled wr now a W = Some (W', r) -> reachable W'
| reach_fire t W W' e :
    reachable W -> fire t W = Some (W', e) -> reachable W'
| reach_abort wr W W' :
    reachable W -> abort wr W = Some W' -> reachable W'.

(** The closure [c] has the entry [t -> reject of p] in its queue. *)
Definition queued {Arg Val Exn} (W : World Arg Val Exn) (c t p : nat) : Prop :=
  exists th, closures W !! c = Some th /\ (t, p) ∈ queue th.

(** What holds of the queues in every world the engine reaches. *)
Record world_inv {Arg Val Exn} (W : World Arg Val Exn) : Prop := mkInv {
  inv_ok : world_ok W;
  inv_pending : forall c t p,
    queued W c t p -> promises W !! p = Some Pending;
  inv_timer : forall t tm,
    timers W !! t = Some (Some tm) ->
    queued W (timer_closure tm) t (timer_promise tm);
  inv_promise_once : forall c c' t t' p,
    queued W c t p -> queued W c' t' p -> c = c' /\ t = t';
  inv_handle_once : forall c c' t p p',
    queued W c t p -> queued W c' t p' -> c = c' /\ p = p';
  inv_settled : forall p,
    promises W !! p = Some Pending -> exists c t, queued W c t p
}.

(** ** [test/utils.ts]: [inRange], from the in-range module

    The values the function may be given: a number, a bigint, or anything
    else.  Numbers and bigints compare by their mathematical value; every
    comparison with [NaN] is false. *)

Module Utils.

Inductive value : Type :=
| Number (n : number)
| BigInt (z : Z)
| Other.

(** [typeof value] is ['number'] or ['bigint']. *)
Definition isNumberOrBigInt (v : value) : bool :=
  match v with
  | Number _ | BigInt _ => true
  | Other => false
  end.

Definition numeric (v : value) : number :=
  match v with
  | Number n => n
  | BigInt z => Finite z
  | Other => NaN
  end.

(** [a < b] on numbers. *)
Definition number_lt (a b : number) : bool :=
  match a, b with
  | Finite x, Finite y => bool_decide (x < y)
  | NegInfinity, (Finite _ | PosInfinity) => true
  | Finite _, PosInfinity => true
  | _, _ => false
  end.

(** [a <= b] on numbers: [a < b] or [a == b]. *)
Definition number_le (a b : number) : bool :=
  match a, b with
  | Finite x, Finite y => bool_decide (x <= y)
  | NegInfinity, (Finite _ | PosInfinity | NegInfinity) => true
  | (Finite _ | PosInfinity), PosInfinity => true
  | _, _ => false
  end.

Definition lt (a b : value) : bool := number_lt (numeric a) (numeric b).
Definition le (a b : value) : bool := number_le (numeric a) (numeric b).

(** [const min = (left, right) => left < right ? left : right]. *)
Definition min (left right : value) : value :=
  if lt left right then left else right.

(** [const max = (left, right) => left > right ? left : right]. *)
Definition max (left right : value) : value :=
  if lt right left then left else right.

(** [inRange(number, {start = 0, end})], lines 42-57: [None] is the
    [TypeError]. *)
Definition inRange (number : value) (start : option value) (end_ : value)
  : option bool :=
  let start := default (Number (Finite 0)) start in
  if negb (isNumberOrBigInt number) || negb (isNumberOrBigInt start)
     || negb (isNumberOrBigInt end_)
  then None
  else Some (le (min start end_) number && le number (max end_ start)).

End Utils.

(** ** More concrete inputs *)

(** The world with one pending call to a function that throws. *)
Definition throwing_world : World unit Z string :=
  mkWorld [pending_closure]
          [Some (mkTimer 0 0%nat throws_boom tt 0%nat)]
          [Pending].

(** The timers of the two worlds with one pending call. *)
Definition returning_timer : Timer unit Z string :=
  mkTimer 0 0%nat returns_7 tt 0%nat.

Definition throwing_timer : Timer unit Z string :=
  mkTimer 0 0%nat throws_boom tt 0%nat.

(** A strict closure (limit 1, interval 100) that remembers one timestamp,
    1000: its sequence is full. *)
Definition strict_full : Throttle := mkThrottle 1 100 true [] 0 0 [1000].

(** * Facts about the delay calculators *)

Section StrictFacts.
Implicit Types (th : Throttle) (stamps nows : list Z).

Lemma strictDelay_total now th :
  0 < limit th -> is_Some (strictDelay now th).
Proof.
  intros Hl. unfold strictDelay.
  case_decide as Hlen; [eauto|].
  destruct (strictTicks th) as [|oldest rest] eqn:E.
  - simpl in Hlen. lia.
  - simpl. case_decide; eauto.
Qed.

Lemma strictDelay_frame now th d th' :
  strictDelay now th = Some (d, th') ->
  limit th' = limit th /\ interval th' = interval th /\
  strict th' = strict th /\ queue th' = queue th /\
  currentTick th' = currentTick th /\ activeCount th' = activeCount th.
Proof.
  unfold strictDelay. intros H.
  repeat (case_decide || case_match); simplify_eq; done.
Qed.

Lemma strictRun_snoc nows now th :
  strictRun (nows ++ [now]) th =
  match strictRun nows th with
  | None => None
  | Some (stamps, th1) =>
      match strictDelay now th1 with
      | None => None
      | Some (d, th2) => Some (stamps ++ [now + d], th2)
      end
  end.
Proof.
  revert th. induction nows as [|n nows IH]; intros th; simpl.
  - destruct (strictDelay now th) as [[d th2]|]; done.
  - destruct (strictDelay n th) as [[d th1]|]; [|done].
    rewrite IH. destruct (strictRun nows th1) as [[stamps th2]|]; [|done].
    destruct (strictDelay now th2) as [[d' th3]|]; done.
Qed.

Lemma strictRun_invariant nows th :
  0 < limit th -> strictTicks th = [] ->
  exists stamps th',
    strictRun nows th = Some (stamps, th') /\
    limit th' = limit th /\ interval th' = interval th /\
    strictTicks th' =
      drop (length stamps - Z.to_nat (limit th)) stamps /\
    spaced (Z.to_nat (limit th)) (interval th) stamps.
Proof.
  intros Hl Hnil. induction nows as [|now nows IH] using rev_ind.
  - exists [], th. simpl. rewrite Hnil. repeat split; done.
  - destruct IH as (stamps & th1 & Hrun & HL & HI & Hticks & Hsp).
    rewrite strictRun_snoc, Hrun.
    set (L := Z.to_nat (limit th)) in *.
    assert (HLpos : (0 < L)%nat) by (unfold L; lia).
    unfold strictDelay. rewrite Hticks, length_drop, HL, HI.
    case_decide as Hlen.
    + (* fewer than [limit] stamps so far *)
      assert (Hn : (length stamps < L)%nat) by (unfold L; lia).
      eexists _, _. split; [done|]. simpl. repeat split; try done.
      * rewrite length_app. simpl.
        replace (length stamps - L)%nat with 0%nat by lia.
        replace (length stamps + 1 - L)%nat with 0%nat by lia.
        simpl. by rewrite Z.add_0_r.
      * intros k a b Ha Hb. apply lookup_lt_Some in Hb.
        rewrite length_app in Hb. simpl in Hb. lia.
    + assert (Hn : (L <= length stamps)%nat) by (unfold L in *; lia).
      destruct (lookup_lt_is_Some_2 stamps (length stamps - L)%nat)
        as [oldest Hold]; [lia|].
      rewrite (drop_S _ _ _ Hold).
      assert (Hdrop : forall r,
        drop (S (length stamps - L)) stamps ++ [r] =
        drop (length (stamps ++ [r]) - L) (stamps ++ [r])).
      { intros r. rewrite length_app. simpl.
        replace (length stamps + 1 - L)%nat
          with (S (length stamps - L)) by lia.
        rewrite drop_app_le by lia. done. }
      assert (Hspaced : forall r, oldest + interval th <= r ->
        spaced L (interval th) (stamps ++ [r])).
      { intros r Hr k a b Ha Hb.
        destruct (decide (k + L < length stamps)%nat) as [Hlt|Hge].
        - rewrite lookup_app_l in Ha, Hb by lia. eauto.
        - pose proof (lookup_lt_Some _ _ _ Hb) as Hb'.
          rewrite length_app in Hb'. simpl in Hb'.
          assert (k = (length stamps - L)%nat) as -> by lia.
          rewrite lookup_app_l in Ha by lia.
          rewrite lookup_app_r in Hb by lia.
          replace (length stamps - L + L - length stamps)%nat
            with 0%nat in Hb by lia.
          simpl in Hb. simplify_eq. done. }
      case_decide as Hnow.
      * eexists _, _. split; [done|]. simpl. rewrite Z.add_0_r.
        repeat split; try done; first [apply Hdrop | apply Hspaced; lia].
      * eexists _, _. split; [done|]. simpl.
        replace (now + (oldest + interval th - now))
          with (oldest + interval th) by lia.
        repeat split; try done; first [apply Hdrop | apply Hspaced; lia].
Qed.

(** Stamps that are [m + 1] times [n] places apart are [len] apart too. *)
Lemma spaced_chain n len stamps :
  0 <= len -> spaced n len stamps ->
  forall m k a b,
    stamps !! k = Some a -> stamps !! (k + S m * n)%nat = Some b ->
    a + len <= b.
Proof.
  intros Hlen Hsp m. induction m as [|m IH]; intros k a b Ha Hb.
  - apply (Hsp k); [done|]. by replace (k + n)%nat with (k + 1 * n)%nat by lia.
  - destruct (lookup_lt_is_Some_2 stamps (k + S m * n)%nat) as [c Hc].
    { apply lookup_lt_Some in Hb. lia. }
    pose proof (IH k a c Ha Hc).
    assert (c + len <= b); [|lia].
    apply (Hsp (k + S m * n)%nat); [done|].
    by replace (k + S m * n + n)%nat with (k + S (S m) * n)%nat by lia.
Qed.

(** The places of the stamps that fall in a window. *)
Lemma in_window_places t len stamps :
  exists ks : list nat,
    length ks = length (in_window t len stamps) /\ NoDup ks /\
    forall k, k ∈ ks -> exists e, stamps !! k = Some e /\ t <= e < t + len.
Proof.
  unfold in_window.
  induction stamps as [|x stamps (ks & Hks & Hnd & Hin)] using rev_ind.
  - exists []. repeat split; [constructor|].
    intros k Hk. by apply elem_of_nil in Hk.
  - assert (Hold : forall k, k ∈ ks ->
      exists e, (stamps ++ [x]) !! k = Some e /\ t <= e < t + len).
    { intros k (e & He & HP)%Hin. exists e. split; [|done].
      by apply lookup_app_l_Some. }
    rewrite filter_app.
    destruct (decide (t <= x < t + len)) as [HP|HP].
    + exists (ks ++ [length stamps]).
      rewrite filter_cons_True, filter_nil, !length_app by done.
      repeat split.
      * simpl. lia.
      * apply NoDup_app. repeat split; [done| |apply NoDup_singleton].
        intros k (e & He & _)%Hin ->%list_elem_of_singleton.
        apply lookup_lt_Some in He. lia.
      * intros k [Hk| ->%list_elem_of_singleton]%elem_of_app; [by apply Hold|].
        exists x. split; [|done].
        rewrite lookup_app_r by lia. by rewrite Nat.sub_diag.
    + exists ks. rewrite filter_cons_False, filter_nil, app_nil_r by done.
      done.
Qed.

(** Pigeonhole: stamps in one window of length [len] sit at places that
    differ modulo [n], so there are at most [n] of them. *)
Lemma spaced_window n len stamps t :
  (0 < n)%nat -> 0 < len -> spaced n len stamps ->
  (length (in_window t len stamps) <= n)%nat.
Proof.
  intros Hn Hlen Hsp.
  destruct (in_window_places t len stamps) as (ks & <- & Hnd & Hin).
  assert (Hlt : forall x y, x ∈ ks -> y ∈ ks ->
            (x mod n = y mod n)%nat -> ~ (x < y)%nat).
  { intros x y (ex & Hx & Hwx)%Hin (ey & Hy & Hwy)%Hin Hmod Hxy.
    pose proof (Nat.div_mod_eq x n) as Dx.
    pose proof (Nat.div_mod_eq y n) as Dy.
    rewrite Hmod in Dx.
    assert (Hq : (x / n < y / n)%nat) by nia.
    assert (Hy' : y = (x + S (y / n - x / n - 1) * n)%nat) by nia.
    rewrite Hy' in Hy.
    pose proof (spaced_chain n len stamps ltac:(lia) Hsp _ _ _ _ Hx Hy).
    lia. }
  assert (Hres : NoDup ((fun k => (k mod n)%nat) <$> ks)).
  { apply NoDup_fmap_2_strong; [|done].
    intros x y Hx Hy Hmod.
    destruct (lt_eq_lt_dec x y) as [[Hxy| ->]|Hxy]; [|done|].
    - destruct (Hlt x y Hx Hy Hmod Hxy).
    - destruct (Hlt y x Hy Hx (eq_sym Hmod) Hxy). }
  rewrite <- (length_fmap (fun k => (k mod n)%nat) ks).
  assert (Hsub : ((fun k => (k mod n)%nat) <$> ks) ⊆+ seq 0 n).
  { apply NoDup_submseteq; [done|].
    intros r (k & -> & _)%list_elem_of_fmap.
    apply elem_of_seq. split; [lia|]. simpl. apply Nat.mod_upper_bound. lia. }
  apply submseteq_length in Hsub. by rewrite length_seq in Hsub.
Qed.

(** C1.  In strict mode, calls made from an empty remembered sequence (a new
    engine, or one just aborted) with a positive [limit] and a positive
    [interval], at whatever readings of the clock: every call is given an
    effective timestamp; [strictTicks] remembers the last [limit] of them;
    every stamp is at least [interval] later than the stamp recorded [limit]
    calls before it; and every window [[t, t + interval)] holds at most
    [limit] stamps. *)
Theorem strict_limit_exact th nows :
  0 < limit th -> 0 < interval th -> strictTicks th = [] ->
  exists stamps th',
    strictRun nows th = Some (stamps, th') /\
    strictTicks th' = drop (length stamps - Z.to_nat (limit th)) stamps /\
    spaced (Z.to_nat (limit th)) (interval th) stamps /\
    forall t, Z.of_nat (length (in_window t (interval th) stamps)) <= limit th.
Proof.
  intros Hl Hi Hnil.
  destruct (strictRun_invariant nows th Hl Hnil)
    as (stamps & th' & Hrun & _ & _ & Hticks & Hsp).
  exists stamps, th'. repeat split; try done.
  intros t.
  pose proof (spaced_window (Z.to_nat (limit th)) (interval th) stamps t
                ltac:(lia) Hi Hsp).
  lia.
Qed.

Lemma strict_limit_exact_witness :
  exists stamps th',
    strictRun pause_nows strict_10_100 = Some (stamps, th') /\
    strictTicks th' = drop (length stamps - 10) stamps /\
    spaced 10 100 stamps /\
    forall t, Z.of_nat (length (in_window t 100 stamps)) <= 10.
Proof.
  apply (strict_limit_exact strict_10_100 pause_nows);
    [reflexivity | reflexivity | reflexivity].
Defined.

(** The scenario of the documentation: calls 1 to 9 after the pause run at
    once, call 10 at 100 ms, call 11 at 140 ms. *)
Example strictRun_pause :
  fst <$> strictRun pause_nows strict_10_100 =
  Some [0; 40; 40; 40; 40; 40; 40; 40; 40; 40; 100; 140].
Proof. reflexivity. Qed.

End StrictFacts.

Section WindowedFacts.
Implicit Types (th : Throttle).

(** C2, as the code has it.  [windowedDelay] has three branches.  When
    [now - currentTick > interval] it starts a window at [now] with a count
    of 1 and the delay is 0.  Otherwise, when [activeCount < limit], it
    adds one to the count and the delay is [currentTick - now], which is
    not 0 in general.  Otherwise it moves [currentTick] forward by
    [interval], sets the count to 1 and the delay is the new
    [currentTick - now].  Nothing else of the closure changes.  The result
    is the one the documentation words exactly when the call is not an
    admitted one or is made at [currentTick]. *)
Theorem windowedDelay_branches now th :
  (windowedDelay now th = windowedDelay_spec now th <->
   now - currentTick th > interval th \/ ~ activeCount th < limit th \/
   currentTick th = now) /\
  let '(d, th') := windowedDelay now th in
  (d, currentTick th', activeCount th') =
    (if decide (now - currentTick th > interval th) then
       (0, now, 1)
     else if decide (activeCount th < limit th) then
       (currentTick th - now, currentTick th, activeCount th + 1)
     else
       (currentTick th + interval th - now, currentTick th + interval th, 1))
  /\ limit th' = limit th /\ interval th' = interval th
  /\ strict th' = strict th /\ queue th' = queue th
  /\ strictTicks th' = strictTicks th.
Proof.
  unfold windowedDelay, windowedDelay_spec. split.
  - repeat case_decide; simpl; (split; [intros Heq|intros [?|[?|?]]]);
      simplify_eq; try done; try tauto; try (f_equal; lia).
  - repeat case_decide; simpl; done.
Qed.

(** C2, where the documentation fails: after one call at time
    1000 (limit 2, interval 100) a call at time 1050 is admitted into the
    current window, and its delay is -50, not 0. *)
Lemma windowedDelay_admitted_not_zero :
  currentTick windowed_after_one = 1000 /\
  activeCount windowed_after_one = 1 /\
  (windowedDelay 1050 windowed_after_one).1 = -50 /\
  (windowedDelay_spec 1050 windowed_after_one).1 = 0.
Proof. repeat split; reflexivity. Qed.

(** Apart from the delay of an admitted call the two agree. *)
Lemma windowedDelay_spec_state now th :
  (windowedDelay now th).2 = (windowedDelay_spec now th).2.
Proof.
  unfold windowedDelay, windowedDelay_spec. repeat case_decide; done.
Qed.

(** C4, as the code has it.  With a positive [limit] the strict calculator
    always returns a delay, and it is not negative: it is positive exactly
    when the remembered sequence is full and [now] is before the oldest
    timestamp plus [interval], and then it is what is left until that
    time.  The windowed calculator, whatever [limit] is, returns a delay
    that is negative exactly for a call admitted into the current window
    ([now - currentTick <= interval], [activeCount < limit]) after its
    start ([currentTick < now]); the delay of every admitted call is
    [currentTick - now], which is not below [- interval]. *)
Theorem delay_bounds now th :
  (0 < limit th ->
   exists d th',
     strictDelay now th = Some (d, th') /\ 0 <= d /\
     (0 < d <->
      limit th <= Z.of_nat (length (strictTicks th)) /\
      exists oldest,
        head (strictTicks th) = Some oldest /\ now < oldest + interval th) /\
     (forall oldest,
        limit th <= Z.of_nat (length (strictTicks th)) ->
        head (strictTicks th) = Some oldest -> now < oldest + interval th ->
        d = oldest + interval th - now)) /\
  ((windowedDelay now th).1 < 0 <->
   now - currentTick th <= interval th /\ activeCount th < limit th /\
   currentTick th < now) /\
  (now - currentTick th <= interval th -> activeCount th < limit th ->
   (windowedDelay now th).1 = currentTick th - now /\
   - interval th <= (windowedDelay now th).1).
Proof.
  split; [|split].
  - intros Hl. unfold strictDelay. case_decide as Hlen.
    + eexists _, _. split; [done|]. split; [lia|]. split.
      * split; [lia|]. intros [Hfull _]. lia.
      * intros oldest Hfull. lia.
    + destruct (strictTicks th) as [|oldest rest]; [simpl in Hlen; lia|].
      simpl. case_decide as Hnow; eexists _, _; (split; [done|]).
      * split; [lia|]. split.
        -- split; [lia|]. intros (_ & oldest' & ? & ?). simplify_eq. lia.
        -- intros oldest' _ ? ?. simplify_eq. lia.
      * split; [lia|]. split.
        -- split; [|lia]. intros _. split; [simpl in Hlen; lia|].
           exists oldest. split; [done|lia].
        -- intros oldest' _ ? ?. by simplify_eq.
  - unfold windowedDelay. repeat case_decide; simpl; split; lia.
  - unfold windowedDelay. repeat case_decide; simpl; lia.
Qed.

Lemma delay_bounds_witness :
  (exists d th',
     strictDelay 1050 strict_full = Some (d, th') /\ 0 <= d /\
     (0 < d <->
      limit strict_full <= Z.of_nat (length (strictTicks strict_full)) /\
      exists oldest,
        head (strictTicks strict_full) = Some oldest /\
        1050 < oldest + interval strict_full) /\
     (forall oldest,
        limit strict_full <= Z.of_nat (length (strictTicks strict_full)) ->
        head (strictTicks strict_full) = Some oldest ->
        1050 < oldest + interval strict_full ->
        d = oldest + interval strict_full - 1050)) /\
  ((windowedDelay 1050 windowed_after_one).1 < 0 <->
   1050 - currentTick windowed_after_one <= interval windowed_after_one /\
   activeCount windowed_after_one < limit windowed_after_one /\
   currentTick windowed_after_one < 1050) /\
  (windowedDelay 1050 windowed_after_one).1
    = currentTick windowed_after_one - 1050.
Proof.
  split; [|split].
  - apply (proj1 (delay_bounds 1050 strict_full)). reflexivity.
  - apply (proj1 (proj2 (delay_bounds 1050 windowed_after_one))).
  - apply (proj2 (proj2 (delay_bounds 1050 windowed_after_one)));
      reflexivity || (simpl; lia).
Defined.

(** The two delays of the witness: in strict mode 50 ms are left until the
    oldest timestamp is one interval old; in windowed mode the call is due
    50 ms before it is made. *)
Example delay_bounds_values :
  (fst <$> strictDelay 1050 strict_full) = Some 50 /\
  (windowedDelay 1050 windowed_after_one).1 = -50.
Proof. split; reflexivity. Qed.

(** C4, where the documentation fails: two calls, at times 1000 and 1050,
    through a new windowed engine with limit 2 and interval 100.  The
    second delay is negative. *)
Lemma windowedDelay_negative :
  (windowedRun [1000; 1050] windowed_2_100).1 = [0; -50] /\ -50 < 0.
Proof. split; reflexivity. Qed.

End WindowedFacts.

Section Validation.
Context {Arg Val Exn : Type}.
Implicit Types (W : World Arg Val Exn) (o : Options.t).

(** C3, as the code has it.  [pThrottle] throws a [TypeError] exactly when
    [limit] or [interval] is not a finite number, and then returns no
    engine at all.  For finite values, positive or not, it succeeds: the
    world gains one closure, in its initial state, and nothing else
    changes. *)
Theorem pThrottle_validation o W :
  ((exists e, pThrottle o W = Throw e) <->
   isFinite (Options.limit o) && isFinite (Options.interval o) = false) /\
  (forall e, pThrottle o W = Throw e -> exists msg, e = TypeError msg) /\
  (forall l i, Options.limit o = Finite l -> Options.interval o = Finite i ->
     pThrottle o W =
       Normal (mkWorld
                 (closures W ++
                    [fresh_throttle l i (default false (Options.strict o))])
                 (timers W) (promises W),
               length (closures W))).
Proof.
  unfold pThrottle.
  destruct (Options.limit o), (Options.interval o); simpl;
    (split; [split; [intros [e He]; by simplify_eq | intros; by eauto]|]);
    (split; [intros e He; simplify_eq; eauto | intros; by simplify_eq]).
Qed.

End Validation.

(** C3, where the documentation fails: a [limit] of 0 and an [interval] of
    -5 are finite and not positive, and [pThrottle] accepts them. *)
Lemma pThrottle_accepts_nonpositive :
  finite_positive (Options.limit nonpositive_options) = false /\
  finite_positive (Options.interval nonpositive_options) = false /\
  pThrottle nonpositive_options (@empty_world unit Z string) =
    Normal (mkWorld [fresh_throttle 0 (-5) false] [] [], 0%nat).
Proof. repeat split; reflexivity. Qed.

(** * Facts about the engine *)

(** Membership in [x :: l], as a hypothesis, by cases. *)
Ltac cons_mem :=
  repeat match goal with
    | H : _ ∈ _ :: _ |- _ => apply elem_of_cons in H as [?|?]
    | H : _ ∉ _ :: _ |- _ => apply not_elem_of_cons in H as [? ?]
    end;
  simplify_eq; try done.

Section AbortFacts.
Context {Arg Val Exn : Type}.
Implicit Types (W : World Arg Val Exn) (wr : Wrapper Arg Val Exn).
Implicit Types (ts : list (option (Timer Arg Val Exn))).
Implicit Types (ps : list (Settlement Val Exn)) (q : Map) (th : Throttle).

Lemma abort_loop q ts ps :
  foldl abort_entry (ts, ps) q = (clear_all q ts, reject_all q ps).
Proof.
  revert ts ps. induction q as [|e q IH]; intros ts ps; [done|].
  simpl. unfold abort_entry at 2. simpl. apply IH.
Qed.

Lemma length_clear_all q ts : length (clear_all q ts) = length ts.
Proof.
  revert ts. induction q as [|e q IH]; intros ts; [done|].
  simpl. rewrite IH. apply length_insert.
Qed.

Lemma length_reject ps p (e : Error Exn) : length (reject p e ps) = length ps.
Proof.
  unfold reject. repeat case_match; try done. apply length_insert.
Qed.

Lemma length_reject_all q ps : length (reject_all q ps) = length ps.
Proof.
  revert ps. induction q as [|e q IH]; intros ps; [done|].
  simpl. rewrite IH. apply length_reject.
Qed.

(** The timers that [abort] visits are cleared, the others are as before. *)
Lemma clear_all_lookup q ts t :
  clear_all q ts !! t =
  if decide (t ∈ Map_keys q) then (fun _ => None) <$> ts !! t else ts !! t.
Proof.
  unfold Map_keys. revert ts. induction q as [|[k v] q IH]; intros ts.
  - done.
  - simpl. rewrite IH. unfold clearTimeout. simpl.
    rewrite list_lookup_insert.
    clear IH. destruct (ts !! t) as [x|] eqn:E.
    all: destruct (decide (t ∈ q.*1)) as [Hq|Hq],
                  (decide (k = t ∧ (k < length ts)%nat)) as [[-> Hk]|Hk],
                  (decide (t ∈ _ :: _)) as [Ht|Ht]; simpl; cons_mem.
    all: first [ apply lookup_ge_None in E; lia
               | apply lookup_lt_Some in E; destruct Hk; split; [done|lia] ].
Qed.

Lemma reject_lookup ps p p' :
  reject p' AbortError ps !! p =
  (if decide (p = p') then aborted else id) <$> ps !! p.
Proof.
  unfold reject. case_decide as Hp.
  - subst p'. destruct (ps !! p) as [[]|] eqn:E; simpl; rewrite ?E; try done.
    rewrite list_lookup_insert_eq; [done|]. by eapply lookup_lt_Some.
  - destruct (ps !! p') as [[]|] eqn:E; simpl;
      rewrite ?list_lookup_insert_ne by done; by destruct (ps !! p).
Qed.

(** The promises that [abort] visits are rejected if they were pending, the
    others are as before. *)
Lemma reject_all_lookup q ps p :
  reject_all q ps !! p =
  (if decide (p ∈ q.*2) then aborted else id) <$> ps !! p.
Proof.
  revert ps. induction q as [|[k v] q IH]; intros ps.
  - simpl. by destruct (ps !! p).
  - simpl. rewrite IH, reject_lookup. simpl.
    destruct (ps !! p) as [s|]; [|done]. simpl. f_equal.
    destruct (decide (p ∈ q.*2)), (decide (p = v)), (decide (p ∈ _ :: _));
      cons_mem; by destruct s.
Qed.

(** C5, as the code has it.  [abort] never fails.  It clears the timer of
    every queued call, so that none of them can fire any more, rejects the
    promise of every queued call that is still pending with an
    [AbortError], and leaves a queue of size 0.  Timers and promises that
    are not queued are untouched.  With an empty queue it changes nothing
    but the remembered timestamps of the strict calculator, which it
    empties. *)
Theorem abort_rejects_pending wr W th :
  closures W !! closure wr = Some th ->
  exists W',
    abort wr W = Some W' /\
    queueSize wr W' = Some 0%nat /\
    (forall t, t ∈ Map_keys (queue th) ->
       timers W' !! t = (fun _ => None) <$> timers W !! t /\
       fire t W' = None) /\
    (forall p, p ∈ (queue th).*2 -> promises W !! p = Some Pending ->
       promises W' !! p = Some (Rejected AbortError)) /\
    (forall t, t ∉ Map_keys (queue th) -> timers W' !! t = timers W !! t) /\
    (forall p, p ∉ (queue th).*2 -> promises W' !! p = promises W !! p) /\
    (queue th = [] ->
       timers W' = timers W /\ promises W' = promises W /\
       closures W' = <[closure wr := with_strictTicks [] th]> (closures W)).
Proof.
  intros Hth. pose proof (lookup_lt_Some _ _ _ Hth) as Hlt.
  unfold abort. rewrite Hth, abort_loop. simpl.
  eexists. split; [done|].
  assert (Hclear : forall t, t ∈ Map_keys (queue th) ->
    clear_all (queue th) (timers W) !! t = (fun _ => None) <$> timers W !! t).
  { intros t Ht. rewrite clear_all_lookup. by rewrite decide_True. }
  repeat apply conj.
  - unfold queueSize. simpl. by rewrite list_lookup_insert_eq.
  - intros t Ht. split; [by apply Hclear|].
    unfold fire. simpl. rewrite (Hclear t) by done.
    by destruct (timers W !! t).
  - intros p Hp Hpend. simpl.
    by rewrite reject_all_lookup, decide_True, Hpend.
  - intros t Ht. simpl. by rewrite clear_all_lookup, decide_False.
  - intros p Hp. simpl. rewrite reject_all_lookup, decide_False by done.
    by destruct (promises W !! p).
  - intros Hq. simpl. rewrite Hq. repeat split.
    by destruct th; simplify_eq/=.
Qed.

End AbortFacts.

(** The concrete worlds are worlds the engine reaches. *)
Example pending_world_reached :
  after_call false returns_7 = Some pending_world.
Proof. reflexivity. Qed.

Example fired_strict_world_reached :
  after_fire true returns_7 = Some fired_strict_world.
Proof. reflexivity. Qed.

Example world_1_100_reached s :
  pThrottle (options_1_100 s) empty_world = Normal (world_1_100 s, 0%nat).
Proof. reflexivity. Qed.

Lemma abort_rejects_pending_witness :
  exists W',
    abort first_wrapper pending_world = Some W' /\
    queueSize first_wrapper W' = Some 0%nat /\
    promises W' !! 0%nat = Some (Rejected AbortError) /\
    fire 0%nat W' = None.
Proof.
  destruct (abort_rejects_pending first_wrapper pending_world pending_closure)
    as (W' & Habort & Hsize & Htimers & Hpromises & _); [reflexivity|].
  exists W'. repeat split; [done|done| |].
  - apply Hpromises; [|reflexivity]. simpl. by left.
  - apply Htimers. simpl. by left.
Defined.

(** C5, where the documentation fails: with nothing queued, [abort] is not
    a no-op.  In the strict engine whose only call has fired, the next call
    at time 1000 would wait 100 ms; after [abort] it does not wait. *)
Lemma abort_empty_queue_not_noop :
  queueSize first_wrapper fired_strict_world = Some 0%nat /\
  nextDelay first_wrapper 1000 fired_strict_world = Some 100 /\
  (abort first_wrapper fired_strict_world ≫= nextDelay first_wrapper 1000)
    = Some 0.
Proof. repeat split; reflexivity. Qed.

Section StrictHistory.
Context {Arg Val Exn : Type}.
Implicit Types (W : World Arg Val Exn) (wr : Wrapper Arg Val Exn).
Implicit Types (th : Throttle).

Lemma strictDelay_same now th1 th2 :
  same_strict th1 th2 ->
  match strictDelay now th1, strictDelay now th2 with
  | Some (d1, th1'), Some (d2, th2') => d1 = d2 /\ same_strict th1' th2'
  | None, None => True
  | _, _ => False
  end.
Proof.
  intros (Hl & Hi & Ht). unfold strictDelay, same_strict.
  rewrite Hl, Hi, Ht.
  case_decide; simpl; [done|].
  destruct (strictTicks th2); [done|].
  case_decide; simpl; done.
Qed.

Lemma strictRun_same nows th1 th2 :
  same_strict th1 th2 ->
  fst <$> strictRun nows th1 = fst <$> strictRun nows th2.
Proof.
  revert th1 th2. induction nows as [|now nows IH]; intros th1 th2 Hs; [done|].
  simpl. pose proof (strictDelay_same now th1 th2 Hs) as Hd.
  destruct (strictDelay now th1) as [[d1 th1']|],
           (strictDelay now th2) as [[d2 th2']|]; try done.
  destruct Hd as [-> Hs']. specialize (IH _ _ Hs').
  destruct (strictRun nows th1') as [[s1 ?]|],
           (strictRun nows th2') as [[s2 ?]|]; by simplify_eq/=.
Qed.

(** C8.  [abort] empties the remembered timestamps of the strict calculator,
    so that the calls that follow are stamped as the calls through a new
    engine with the same [limit] and [interval] are; it leaves
    [currentTick] and [activeCount] of the windowed calculator as they
    were, and so the delays the windowed calculator gives. *)
Theorem abort_resets_strict_history wr W th :
  closures W !! closure wr = Some th ->
  exists W' th',
    abort wr W = Some W' /\
    closures W' !! closure wr = Some th' /\
    strictTicks th' = [] /\
    currentTick th' = currentTick th /\
    activeCount th' = activeCount th /\
    (forall nows,
       fst <$> strictRun nows th' =
       fst <$> strictRun nows
                 (fresh_throttle (limit th) (interval th) (strict th))) /\
    (forall now, (windowedDelay now th').1 = (windowedDelay now th).1).
Proof.
  intros Hth. pose proof (lookup_lt_Some _ _ _ Hth) as Hlt.
  unfold abort. rewrite Hth. eexists _, _. split; [done|]. simpl.
  rewrite list_lookup_insert_eq by done.
  repeat apply conj; try done.
  - intros nows. by apply strictRun_same.
  - intros now. unfold windowedDelay. simpl. by repeat case_decide.
Qed.

End StrictHistory.

Lemma abort_resets_strict_history_witness :
  exists W' th',
    abort first_wrapper fired_strict_world = Some W' /\
    closures W' !! 0%nat = Some th' /\
    strictTicks th' = [] /\
    (forall nows,
       fst <$> strictRun nows th' =
       fst <$> strictRun nows (fresh_throttle 1 100 true)).
Proof.
  destruct (abort_resets_strict_history first_wrapper fired_strict_world
              (mkThrottle 1 100 true [] 0 0 [1000]))
    as (W' & th' & Habort & Hth' & Hticks & _ & _ & Hrun & _); [reflexivity|].
  by exists W', th'.
Defined.

Section Disabled.
Context {Arg Val Exn : Type}.
Implicit Types (W : World Arg Val Exn) (wr : Wrapper Arg Val Exn).

(** C6.  A call through a wrapper whose [isEnabled] is false runs the
    wrapped function at once.  It sets no timer and queues nothing, it
    leaves every closure as it was (queue size and next delay included),
    and it does not look at the closures or at the clock: the result is the
    same whatever they are.  The promise it returns is a new one, resolved
    with what the function returned or rejected with what it threw. *)
Theorem disabled_call_bypasses wr now a W :
  isEnabled wr = false ->
  exists W',
    throttled wr now a W = Some (W', Normal (length (promises W))) /\
    closures W' = closures W /\
    timers W' = timers W /\
    promises W' =
      promises W ++ [match function_ wr a with
                     | Returns v => Resolved v
                     | Throws e => Rejected (Thrown e)
                     end] /\
    queueSize wr W' = queueSize wr W /\
    (forall now', nextDelay wr now' W' = nextDelay wr now' W) /\
    (forall cs now',
       throttled wr now' a (mkWorld cs (timers W) (promises W)) =
       Some (mkWorld cs (timers W') (promises W'),
             Normal (length (promises W)))).
Proof.
  intros Hoff. unfold throttled. rewrite Hoff. simpl.
  eexists. split; [done|]. simpl. repeat apply conj; try done.
Qed.

(** C10.  A call through a disabled wrapper returns a promise, a new one,
    and does not throw: when the wrapped function throws, the promise is
    rejected with what was thrown. *)
Theorem disabled_call_never_throws wr now a W :
  isEnabled wr = false ->
  exists W' p,
    throttled wr now a W = Some (W', Normal p) /\
    promises W !! p = None /\
    is_Some (promises W' !! p) /\
    forall e, function_ wr a = Throws e ->
              promises W' !! p = Some (Rejected (Thrown e)).
Proof.
  intros Hoff. unfold throttled. rewrite Hoff. simpl.
  eexists _, _. split; [done|]. simpl. repeat apply conj.
  - by apply lookup_ge_None_2.
  - apply lookup_lt_is_Some. rewrite length_app. simpl. lia.
  - intros e ->. simpl.
    rewrite lookup_app_r by done. by rewrite Nat.sub_diag.
Qed.

End Disabled.

Lemma disabled_call_bypasses_witness :
  exists W',
    throttled (disabled_wrapper returns_7) 1000 tt pending_world
      = Some (W', Normal 1%nat) /\
    closures W' = closures pending_world /\
    timers W' = timers pending_world /\
    promises W' = [Pending; Resolved 7].
Proof.
  destruct (disabled_call_bypasses (disabled_wrapper returns_7) 1000 tt
              pending_world)
    as (W' & Hcall & Hcl & Hts & Hps & _); [reflexivity|].
  by exists W'.
Defined.

Lemma disabled_call_never_throws_witness :
  exists W' p,
    throttled (disabled_wrapper throws_boom) 1000 tt pending_world
      = Some (W', Normal p) /\
    promises W' !! p = Some (Rejected (Thrown "boom"%string)).
Proof.
  destruct (disabled_call_never_throws (disabled_wrapper throws_boom) 1000 tt
              pending_world)
    as (W' & p & Hcall & _ & _ & Hthrown); [reflexivity|].
  exists W', p. split; [done|]. by apply Hthrown.
Defined.

(** * The queue and the worlds the engine reaches *)

Section MapFacts.
Implicit Types (q : Map) (k v t p : nat).

Lemma Map_set_fresh k v q :
  k ∉ Map_keys q -> Map_set k v q = q ++ [(k, v)].
Proof.
  unfold Map_keys. induction q as [|[k' v'] q IH]; intros Hk; [done|].
  simpl in *. apply not_elem_of_cons in Hk as [Hne Hk].
  rewrite decide_False by done. by rewrite IH.
Qed.

Lemma Map_delete_keys k q :
  Map_keys (Map_delete k q) = filter (fun t => t ≠ k) (Map_keys q).
Proof.
  unfold Map_keys. induction q as [|[k' v'] q IH]; [done|]. simpl.
  case_decide as Hk.
  - subst k'. by rewrite filter_cons_False by naive_solver.
  - rewrite filter_cons_True by naive_solver. csimpl. by rewrite IH.
Qed.

Lemma Map_delete_Forall (P : nat * nat -> Prop) k q :
  Forall P q -> Forall P (Map_delete k q).
Proof.
  induction 1 as [|[k' v'] q HP Hq IH]; [done|]. simpl.
  case_decide; [done|by constructor].
Qed.

Lemma Map_delete_absent k q : k ∉ Map_keys q -> Map_delete k q = q.
Proof.
  unfold Map_keys. induction q as [|[k' v'] q IH]; intros Hk; [done|].
  simpl in *. apply not_elem_of_cons in Hk as [Hne Hk].
  rewrite decide_False by done. by rewrite IH.
Qed.

(** [queue.delete] of a queued handle removes exactly one entry. *)
Lemma Map_delete_size k q :
  NoDup (Map_keys q) -> k ∈ Map_keys q ->
  S (Map_size (Map_delete k q)) = Map_size q.
Proof.
  unfold Map_keys, Map_size.
  induction q as [|[k' v'] q IH]; intros Hnd Hk; [by apply elem_of_nil in Hk|].
  simpl in *. apply NoDup_cons in Hnd as [Hk' Hnd].
  case_decide as Hkk.
  - subst k'. by rewrite (Map_delete_absent k q).
  - simpl. rewrite IH; [done|done|]. by cons_mem.
Qed.

Lemma queue_ok_mono n m n' m' q :
  (n <= n')%nat -> (m <= m')%nat -> queue_ok n m q -> queue_ok n' m' q.
Proof.
  intros Hn Hm [Hnd Hall]. split; [done|].
  eapply Forall_impl; [done|]. simpl. intros e. lia.
Qed.

Lemma queue_ok_fresh n m q : queue_ok n m q -> n ∉ Map_keys q.
Proof.
  intros [_ Hall] (e & -> & He)%list_elem_of_fmap.
  rewrite Forall_forall in Hall. apply Hall in He. lia.
Qed.

Lemma queue_ok_set n m q :
  queue_ok n m q -> queue_ok (S n) (S m) (Map_set n m q).
Proof.
  intros Hok. rewrite Map_set_fresh by by eapply queue_ok_fresh.
  pose proof (queue_ok_fresh _ _ _ Hok) as Hfresh.
  destruct (queue_ok_mono n m (S n) (S m) q ltac:(lia) ltac:(lia) Hok)
    as [Hnd Hall].
  split.
  - unfold Map_keys in *. rewrite fmap_app. apply NoDup_app.
    repeat split; [done| |apply NoDup_singleton].
    intros t Ht ->%list_elem_of_singleton. done.
  - apply Forall_app. split; [done|]. apply Forall_singleton. simpl. lia.
Qed.

Lemma queue_ok_delete n m k q : queue_ok n m q -> queue_ok n m (Map_delete k q).
Proof.
  intros [Hnd Hall]. split.
  - rewrite Map_delete_keys. by apply NoDup_filter.
  - by apply Map_delete_Forall.
Qed.

Lemma queue_ok_nil n m : queue_ok n m [].
Proof. split; constructor. Qed.

End MapFacts.

Section WorldFacts.
Context {Arg Val Exn : Type}.
Implicit Types (W : World Arg Val Exn) (wr : Wrapper Arg Val Exn).
Implicit Types (ts : list (option (Timer Arg Val Exn))).
Implicit Types (ps : list (Settlement Val Exn)) (q : Map) (th : Throttle).

Lemma getDelay_frame now th d th' :
  getDelay now th = Some (d, th') ->
  queue th' = queue th /\ limit th' = limit th /\
  interval th' = interval th /\ strict th' = strict th.
Proof.
  unfold getDelay. destruct (strict th) eqn:Hs.
  - intros H. apply strictDelay_frame in H as (? & ? & ? & ? & _).
    repeat split; congruence.
  - unfold windowedDelay. intros H.
    repeat case_decide; simplify_eq/=; done.
Qed.

(** Unless the engine is strict with a [limit] that is not positive, a
    delay is always computed. *)
Lemma getDelay_total now th :
  strict th = false \/ 0 < limit th -> is_Some (getDelay now th).
Proof.
  unfold getDelay. destruct (strict th); intros [?|Hl]; try done.
  by apply strictDelay_total.
Qed.

Lemma length_resolve ps p (v : Val) : length (resolve p v ps) = length ps.
Proof.
  unfold resolve. repeat case_match; try done. apply length_insert.
Qed.

Lemma world_ok_empty : world_ok (@empty_world Arg Val Exn).
Proof. constructor. Qed.

Lemma world_ok_lookup W c th :
  world_ok W -> closures W !! c = Some th ->
  queue_ok (length (timers W)) (length (promises W)) (queue th).
Proof. intros Hok Hc. by apply (Forall_lookup_1 _ _ _ _ Hok Hc). Qed.

Lemma pThrottle_ok o W W' c :
  world_ok W -> pThrottle o W = Normal (W', c) -> world_ok W'.
Proof.
  unfold pThrottle, world_ok. intros Hok H.
  repeat case_match; simplify_eq/=.
  apply Forall_app. split; [done|].
  apply Forall_singleton, queue_ok_nil.
Qed.

(** A closure reference handed out by [pThrottle] was not in use before. *)
Lemma pThrottle_fresh o W W' c :
  pThrottle o W = Normal (W', c) ->
  closures W !! c = None /\ is_Some (closures W' !! c) /\
  forall c', c' ≠ c -> closures W' !! c' = closures W !! c'.
Proof.
  unfold pThrottle. intros H. repeat case_match; simplify_eq/=.
  repeat split.
  - by apply lookup_ge_None_2.
  - apply lookup_lt_is_Some. rewrite length_app. simpl. lia.
  - intros c' Hc'. destruct (decide (c' < length (closures W))%nat).
    + by rewrite lookup_app_l.
    + rewrite !lookup_ge_None_2; [done|lia|]. rewrite length_app. simpl. lia.
Qed.

Lemma throttled_ok wr now a W W' r :
  world_ok W -> throttled wr now a W = Some (W', r) -> world_ok W'.
Proof.
  unfold throttled, world_ok. intros Hok H.
  destruct (isEnabled wr); simpl in H.
  - destruct (closures W !! closure wr) as [th|] eqn:Hth; [|done].
    destruct (getDelay now th) as [[d th1]|] eqn:Hd; [|done].
    simplify_eq/=. rewrite !length_app. simpl.
    replace (length (timers W) + 1)%nat with (S (length (timers W))) by lia.
    replace (length (promises W) + 1)%nat with (S (length (promises W))) by lia.
    apply Forall_insert.
    + eapply Forall_impl; [done|]. intros th'. apply queue_ok_mono; lia.
    + simpl. apply getDelay_frame in Hd as (-> & _).
      apply queue_ok_set. by eapply world_ok_lookup.
  - simplify_eq/=. rewrite length_app.
    eapply Forall_impl; [done|]. intros th'. apply queue_ok_mono; lia.
Qed.

Lemma fire_ok t W W' e :
  world_ok W -> fire t W = Some (W', e) -> world_ok W'.
Proof.
  unfold fire, world_ok. intros Hok H.
  destruct (timers W !! t) as [[tm|]|]; try done.
  destruct (timer_function tm (timer_args tm)) as [v|x].
  - destruct (closures W !! timer_closure tm) as [th|] eqn:Hth; [|done].
    simplify_eq/=. rewrite length_insert, length_resolve.
    apply Forall_insert; [done|]. simpl.
    apply queue_ok_delete. by eapply world_ok_lookup.
  - simplify_eq/=. by rewrite length_insert.
Qed.

Lemma abort_ok wr W W' :
  world_ok W -> abort wr W = Some W' -> world_ok W'.
Proof.
  unfold abort, world_ok. intros Hok H.
  destruct (closures W !! closure wr) as [th|]; [|done].
  rewrite abort_loop in H. simplify_eq/=.
  rewrite length_clear_all, length_reject_all.
  apply Forall_insert; [done|]. apply queue_ok_nil.
Qed.

End WorldFacts.

Section QueueSize.
Context {Arg Val Exn : Type}.
Implicit Types (W : World Arg Val Exn) (wr : Wrapper Arg Val Exn).
Implicit Types (th : Throttle).

(** A call through an enabled wrapper adds one entry to the queue, for a
    new timer whose delay is the one the calculator gave and a new promise,
    pending. *)
Lemma throttled_enqueues wr now a W th :
  world_ok W -> isEnabled wr = true ->
  closures W !! closure wr = Some th ->
  strict th = false \/ 0 < limit th ->
  exists W' d th',
    throttled wr now a W = Some (W', Normal (length (promises W))) /\
    getDelay now th = Some (d, th') /\
    closures W' !! closure wr =
      Some (with_queue (queue th ++ [(length (timers W), length (promises W))])
                       th') /\
    queueSize wr W' = S <$> queueSize wr W /\
    timers W' =
      timers W ++ [Some (mkTimer d (closure wr) (function_ wr) a
                                 (length (promises W)))] /\
    promises W' = promises W ++ [Pending].
Proof.
  intros Hok Hon Hth Hlim.
  destruct (getDelay_total now th Hlim) as [[d th'] Hd].
  pose proof (lookup_lt_Some _ _ _ Hth) as Hlt.
  pose proof (getDelay_frame _ _ _ _ Hd) as (Hq & _).
  pose proof (queue_ok_fresh _ _ _ (world_ok_lookup _ _ _ Hok Hth)) as Hfresh.
  unfold throttled, queueSize. rewrite Hon, Hth, Hd. simpl.
  eexists _, d, th'. split; [done|]. simpl.
  rewrite list_lookup_insert_eq by done. simpl.
  rewrite Hq, Map_set_fresh by done.
  repeat split. unfold Map_size. rewrite length_app. simpl. f_equal. lia.
Qed.

(** Calls through an enabled wrapper, none of which has fired: each is
    queued. *)
Lemma calls_queueSize wr nows a W th :
  world_ok W -> isEnabled wr = true ->
  closures W !! closure wr = Some th ->
  strict th = false \/ 0 < limit th ->
  exists W',
    calls wr nows a W = Some W' /\ world_ok W' /\
    queueSize wr W' = Some (Map_size (queue th) + length nows)%nat.
Proof.
  intros Hok Hon. revert W th Hok.
  induction nows as [|now nows IH]; intros W th Hok Hth Hlim.
  - exists W. unfold queueSize. rewrite Hth. simpl. repeat split; [done|].
    f_equal. lia.
  - destruct (throttled_enqueues wr now a W th Hok Hon Hth Hlim)
      as (W1 & d & th1 & Hcall & Hd & Hth1 & _).
    pose proof (throttled_ok _ _ _ _ _ _ Hok Hcall) as Hok1.
    pose proof (getDelay_frame _ _ _ _ Hd) as (_ & Hl & _ & Hs).
    destruct (IH W1 _ Hok1 Hth1) as (W' & Hcalls & Hok' & Hsize).
    { simpl. by rewrite Hl, Hs. }
    exists W'. simpl. rewrite Hcall. repeat split; [done|done|].
    rewrite Hsize. simpl. unfold Map_size. rewrite length_app. simpl.
    f_equal. lia.
Qed.

(** When the timer of a queued call fires and the wrapped function returns,
    the promise of the call is resolved with what it returned and the entry
    leaves the queue: one entry fewer. *)
Lemma fire_returns_dequeues t W tm th v :
  world_ok W ->
  timers W !! t = Some (Some tm) ->
  closures W !! timer_closure tm = Some th ->
  t ∈ Map_keys (queue th) ->
  timer_function tm (timer_args tm) = Returns v ->
  exists W',
    fire t W = Some (W', None) /\
    closures W' !! timer_closure tm =
      Some (with_queue (Map_delete t (queue th)) th) /\
    S (Map_size (Map_delete t (queue th))) = Map_size (queue th) /\
    promises W' = resolve (timer_promise tm) v (promises W) /\
    fire t W' = None.
Proof.
  intros Hok Ht Hth Hin Hret.
  pose proof (lookup_lt_Some _ _ _ Hth) as Hlt.
  pose proof (lookup_lt_Some _ _ _ Ht) as Hlt'.
  destruct (world_ok_lookup _ _ _ Hok Hth) as [Hnd _].
  unfold fire. rewrite Ht, Hret, Hth. eexists. split; [done|]. simpl.
  rewrite !list_lookup_insert_eq by done.
  repeat split. by apply Map_delete_size.
Qed.

(** When the wrapped function throws instead, the exception escapes from
    the timer callback: the promise stays as it was and the entry stays in
    the queue, although its timer is gone. *)
Lemma fire_throws_keeps_entry t W tm e :
  timers W !! t = Some (Some tm) ->
  timer_function tm (timer_args tm) = Throws e ->
  exists W',
    fire t W = Some (W', Some e) /\
    closures W' = closures W /\
    promises W' = promises W /\
    fire t W' = None.
Proof.
  intros Ht Hthrow. pose proof (lookup_lt_Some _ _ _ Ht) as Hlt.
  unfold fire. rewrite Ht, Hthrow. eexists. split; [done|]. simpl.
  by rewrite list_lookup_insert_eq.
Qed.

End QueueSize.

(** C7, on a function that throws.  One call through an enabled wrapper
    (limit 1, interval 100) at time 1000 is queued; its timer fires and the
    function throws.  The call has fired and was not aborted, but the queue
    still holds its entry and its promise is still pending. *)
Theorem queueSize_after_throwing_call :
  (W ← after_call false throws_boom; Some (queueSize second_wrapper W))
    = Some (Some 1%nat) /\
  (W ← after_call false throws_boom; fire 0%nat W)
    = Some (mkWorld [pending_closure] [None] [Pending], Some "boom"%string) /\
  (W ← after_fire false throws_boom; Some (queueSize second_wrapper W))
    = Some (Some 1%nat) /\
  (W ← after_fire false throws_boom; Some (fire 0%nat W)) = Some None.
Proof. repeat split; reflexivity. Qed.

(** The same call to a function that returns leaves an empty queue. *)
Example queueSize_after_returning_call :
  (W ← after_fire false returns_7;
   Some (queueSize first_wrapper W, promises W))
    = Some (Some 0%nat, [Resolved 7]).
Proof. reflexivity. Qed.

Section Sharing.
Context {Arg Val Exn : Type}.
Implicit Types (W : World Arg Val Exn) (wr : Wrapper Arg Val Exn).
Implicit Types (ts : list (option (Timer Arg Val Exn))).
Implicit Types (ps : list (Settlement Val Exn)) (q : Map) (th : Throttle).

(** The loop of [abort] only touches the timers and promises of its queue:
    later ones are as they were. *)
Lemma clear_all_app q ts ts' :
  Forall (fun entry => (entry.1 < length ts)%nat) q ->
  clear_all q (ts ++ ts') = clear_all q ts ++ ts'.
Proof.
  intros Hq. revert ts Hq.
  induction q as [|[t p] q IH]; intros ts Hq; [done|].
  apply Forall_cons in Hq as [Ht Hq]. simpl in *. unfold clearTimeout.
  rewrite insert_app_l by done. apply IH. by rewrite length_insert.
Qed.

Lemma reject_all_app q ps ps' :
  Forall (fun entry => (entry.2 < length ps)%nat) q ->
  reject_all q (ps ++ ps') = reject_all q ps ++ ps'.
Proof.
  intros Hq. revert ps Hq.
  induction q as [|[t p] q IH]; intros ps Hq; [done|].
  apply Forall_cons in Hq as [Hp Hq]. simpl in *.
  assert (Hrej : reject p AbortError (ps ++ ps') =
                 reject p AbortError ps ++ ps').
  { unfold reject. rewrite lookup_app_l by done.
    destruct (ps !! p) as [[]|]; try done. by apply insert_app_l. }
  rewrite Hrej. apply IH. by rewrite length_reject.
Qed.

(** C9, as the code has it.  The state of the engine belongs to one
    invocation of [pThrottle(options)].  A call through a wrapper of one
    closure leaves every other closure as it was: through a wrapper of
    another closure the queue size and the next delay are the same after
    the call as before, and [abort] does the same as before, in that
    aborting after the call gives the world that calling after the abort
    gives. *)
Theorem distinct_closures_independent wr1 wr2 now a W W' r :
  world_ok W -> closure wr1 ≠ closure wr2 ->
  throttled wr1 now a W = Some (W', r) ->
  closures W' !! closure wr2 = closures W !! closure wr2 /\
  queueSize wr2 W' = queueSize wr2 W /\
  (forall now', nextDelay wr2 now' W' = nextDelay wr2 now' W) /\
  (is_Some (abort wr2 W') <-> is_Some (abort wr2 W)) /\
  (forall WA, abort wr2 W = Some WA ->
     exists WA', abort wr2 W' = Some WA' /\
                 throttled wr1 now a WA = Some (WA', r)).
Proof.
  intros Hok Hne Hcall.
  assert (Hsame : closures W' !! closure wr2 = closures W !! closure wr2).
  { unfold throttled in Hcall. destruct (isEnabled wr1); simpl in Hcall.
    - destruct (closures W !! closure wr1) as [th1|]; [|done].
      destruct (getDelay now th1) as [[d th1']|]; [|done].
      simplify_eq/=. by apply list_lookup_insert_ne.
    - by simplify_eq/=. }
  split; [done|].
  split; [unfold queueSize; by rewrite Hsame|].
  split; [intros now'; unfold nextDelay; by rewrite Hsame|].
  split.
  { unfold abort. rewrite Hsame. by destruct (closures W !! closure wr2). }
  intros WA Habort. unfold abort in *. rewrite Hsame.
  destruct (closures W !! closure wr2) as [th2|] eqn:Hth2; [|done].
  rewrite abort_loop in *. simplify_eq/=. eexists. split; [done|].
  destruct (world_ok_lookup _ _ _ Hok Hth2) as [_ Hq].
  assert (Hqt : Forall (fun entry => (entry.1 < length (timers W))%nat)
                       (queue th2)).
  { eapply Forall_impl; [exact Hq|]. by intros e [? ?]. }
  assert (Hqp : Forall (fun entry => (entry.2 < length (promises W))%nat)
                       (queue th2)).
  { eapply Forall_impl; [exact Hq|]. by intros e [? ?]. }
  unfold throttled in *. destruct (isEnabled wr1); simpl in *.
  - rewrite list_lookup_insert_ne by done.
    destruct (closures W !! closure wr1) as [th1|]; [|done].
    destruct (getDelay now th1) as [[d th1']|]; [|done].
    simplify_eq/=.
    rewrite length_clear_all, length_reject_all.
    rewrite clear_all_app, reject_all_app by done.
    by rewrite list_insert_insert_ne.
  - simplify_eq/=. rewrite length_reject_all.
    by rewrite reject_all_app.
Qed.

(** The timer of a call only touches the closure of its wrapper. *)
Lemma fire_other_closure t W W' e tm c :
  timers W !! t = Some (Some tm) -> timer_closure tm ≠ c ->
  fire t W = Some (W', e) ->
  closures W' !! c = closures W !! c.
Proof.
  unfold fire. intros -> Hne H.
  destruct (timer_function tm (timer_args tm)).
  - destruct (closures W !! timer_closure tm); [|done].
    simplify_eq/=. by apply list_lookup_insert_ne.
  - by simplify_eq/=.
Qed.

End Sharing.

Lemma distinct_closures_independent_witness :
  exists W',
    throttled first_wrapper 1000 tt two_closures = Some (W', Normal 0%nat) /\
    queueSize other_wrapper W' = Some 0%nat /\
    nextDelay other_wrapper 1000 W' = Some 0.
Proof.
  edestruct (distinct_closures_independent first_wrapper other_wrapper 1000 tt
               two_closures)
    as (_ & Hsize & Hdelay & _); [compute_done | compute_done | reflexivity |].
  eexists. split; [reflexivity|].
  split; [rewrite Hsize | rewrite Hdelay]; reflexivity.
Defined.

(** C9, where the documentation fails: two wrappers made by the same
    [pThrottle({limit: 1, interval: 100})].  Before any call the second one
    sees an empty queue and a next delay of 0.  After one call through the
    first, the second sees a queue of size 1 and a next delay of 100, and
    its [abort] rejects the promise of the call made through the first. *)
Lemma shared_closure_interference :
  closure first_wrapper = closure second_wrapper /\
  queueSize second_wrapper (world_1_100 false) = Some 0%nat /\
  nextDelay second_wrapper 1000 (world_1_100 false) = Some 0 /\
  queueSize second_wrapper pending_world = Some 1%nat /\
  nextDelay second_wrapper 1000 pending_world = Some 100 /\
  (W ← abort second_wrapper pending_world; promises W !! 0%nat)
    = Some (Rejected AbortError).
Proof. repeat split; reflexivity. Qed.

(** * More about the strict calculator *)

Section StrictMore.
Implicit Types (th : Throttle) (stamps nows : list Z).

(** X5.  From any state that remembers at most [limit] timestamps
    ([limit] positive), every call of the strict calculator returns a
    delay, and the remembered sequence grows by one timestamp a call until
    it holds [limit] of them, and then stays at [limit]. *)
Theorem strictTicks_length_bound nows th :
  0 < limit th ->
  Z.of_nat (length (strictTicks th)) <= limit th ->
  exists stamps th',
    strictRun nows th = Some (stamps, th') /\
    limit th' = limit th /\
    Z.of_nat (length (strictTicks th')) =
      Z.min (limit th) (Z.of_nat (length (strictTicks th) + length nows)).
Proof.
  revert th. induction nows as [|now nows IH]; intros th Hl Hlen.
  - exists [], th. simpl. repeat split. lia.
  - simpl.
    assert (Hstep : exists d th1,
      strictDelay now th = Some (d, th1) /\ limit th1 = limit th /\
      Z.of_nat (length (strictTicks th1)) =
        Z.min (limit th) (Z.of_nat (length (strictTicks th) + 1))).
    { unfold strictDelay. case_decide as Hlt.
      - eexists _, _. split; [done|]. simpl. rewrite length_app. simpl. lia.
      - destruct (strictTicks th) as [|oldest rest] eqn:E;
          [simpl in Hlt; lia|].
        case_decide; (eexists _, _; split; [done|]); simpl;
          rewrite length_app; simpl in *; lia. }
    destruct Hstep as (d & th1 & -> & HL1 & Hlen1).
    destruct (IH th1) as (stamps & th' & -> & HL' & Hlen'); [lia..|].
    eexists _, _. split; [done|]. split; [congruence|]. lia.
Qed.

Lemma strictRun_length nows th stamps th' :
  strictRun nows th = Some (stamps, th') -> length stamps = length nows.
Proof.
  revert th stamps. induction nows as [|now nows IH]; intros th stamps H.
  - by simplify_eq/=.
  - simpl in H. destruct (strictDelay now th) as [[d th1]|]; [|done].
    destruct (strictRun nows th1) as [[s th2]|] eqn:E; [|done].
    simplify_eq/=. f_equal. by eapply IH.
Qed.

Lemma strictRun_stamped nows th :
  0 < limit th -> strictTicks th = [] ->
  exists stamps th',
    strictRun nows th = Some (stamps, th') /\
    stamped (Z.to_nat (limit th)) (interval th) nows stamps.
Proof.
  intros Hl Hnil. induction nows as [|now nows IH] using rev_ind.
  - exists [], th. split; [done|].
    intros k now r Hk. by rewrite lookup_nil in Hk.
  - destruct IH as (stamps & th1 & Hrun & Hst).
    destruct (strictRun_invariant nows th Hl Hnil)
      as (stamps' & th1' & Hrun' & HL & HI & Hticks & _).
    rewrite Hrun in Hrun'. simplify_eq.
    pose proof (strictRun_length _ _ _ _ Hrun) as Hlen.
    rewrite strictRun_snoc, Hrun.
    set (L := Z.to_nat (limit th)) in *.
    assert (HLpos : (0 < L)%nat) by (unfold L; lia).
    assert (Hstep : forall r,
      ((length stamps' < L)%nat -> r = now) ->
      ((L <= length stamps')%nat ->
       exists a, stamps' !! (length stamps' - L)%nat = Some a /\
                 r = Z.max now (a + interval th)) ->
      stamped L (interval th) (nows ++ [now]) (stamps' ++ [r])).
    { intros r Hr1 Hr2 k nw x Hnw Hx.
      destruct (decide (k < length stamps')%nat) as [Hk|Hk].
      - rewrite lookup_app_l in Hnw, Hx by lia.
        destruct (Hst k nw x Hnw Hx) as [H1 H2]. split; [done|].
        intros HLk. destruct (H2 HLk) as (a & Ha & ->).
        exists a. split; [|done]. by apply lookup_app_l_Some.
      - pose proof (lookup_lt_Some _ _ _ Hx) as Hk'.
        rewrite length_app in Hk'. simpl in Hk'.
        assert (k = length stamps') as -> by lia.
        rewrite lookup_app_r in Hnw, Hx by lia.
        rewrite Hlen, Nat.sub_diag in Hnw. rewrite Nat.sub_diag in Hx.
        simplify_eq/=. split; [done|].
        intros HLk. destruct (Hr2 HLk) as (a & Ha & ->).
        exists a. split; [|done]. by apply lookup_app_l_Some. }
    unfold strictDelay. rewrite Hticks, length_drop, HL, HI.
    case_decide as Hlt.
    + eexists _, _. split; [done|]. apply Hstep; [lia|unfold L in *; lia].
    + assert (Hn : (L <= length stamps')%nat) by (unfold L in *; lia).
      destruct (lookup_lt_is_Some_2 stamps' (length stamps' - L)%nat)
        as [oldest Hold]; [lia|].
      rewrite (drop_S _ _ _ Hold).
      case_decide as Hnow; (eexists _, _; split; [done|]);
        (apply Hstep; [lia|]); intros _; exists oldest; (split; [done|]); lia.
Qed.

(** X6.  In strict mode no call waits longer than the limit asks for: from
    an empty remembered sequence, each of the first [limit] calls is stamped
    with its own reading of the clock, and each later call with the later of
    its reading of the clock and [interval] past the stamp of the call
    [limit] places before it. *)
Theorem strict_stamps_recurrence nows th :
  0 < limit th -> strictTicks th = [] ->
  exists stamps th',
    strictRun nows th = Some (stamps, th') /\
    length stamps = length nows /\
    stamped (Z.to_nat (limit th)) (interval th) nows stamps.
Proof.
  intros Hl Hnil.
  destruct (strictRun_stamped nows th Hl Hnil) as (stamps & th' & Hrun & Hst).
  exists stamps, th'. split; [done|].
  split; [by eapply strictRun_length|done].
Qed.

Lemma adjacent_nondecreasing (l : list Z) :
  (forall k a b, l !! k = Some a -> l !! S k = Some b -> a <= b) ->
  nondecreasing l.
Proof.
  intros Hadj i j a b Hij Ha Hb.
  revert b Hb. induction Hij as [|j Hij IH]; intros b Hb.
  - by simplify_eq.
  - destruct (lookup_lt_is_Some_2 l j) as [c Hc].
    { apply lookup_lt_Some in Hb. lia. }
    specialize (IH c Hc). specialize (Hadj j c b Hc Hb). lia.
Qed.

Lemma nondecreasing_drop n (l : list Z) :
  nondecreasing l -> nondecreasing (drop n l).
Proof.
  intros Hl i j a b Hij. rewrite !lookup_drop. apply Hl. lia.
Qed.

Lemma stamped_nondecreasing n len nows stamps :
  (0 < n)%nat -> 0 <= len -> length stamps = length nows ->
  stamped n len nows stamps -> nondecreasing nows -> nondecreasing stamps.
Proof.
  intros Hn Hlen Hlength Hst Hnows. apply adjacent_nondecreasing.
  intros k. induction k as [k IH] using lt_wf_ind. intros a b Ha Hb.
  destruct (lookup_lt_is_Some_2 nows k) as [na Hna].
  { apply lookup_lt_Some in Ha. lia. }
  destruct (lookup_lt_is_Some_2 nows (S k)) as [nb Hnb].
  { apply lookup_lt_Some in Hb. lia. }
  pose proof (Hnows k (S k) na nb ltac:(lia) Hna Hnb) as Hclock.
  destruct (Hst k na a Hna Ha) as [Ha1 Ha2].
  destruct (Hst (S k) nb b Hnb Hb) as [Hb1 Hb2].
  destruct (decide (S k < n)%nat) as [Hk|Hk].
  - rewrite Ha1, Hb1 by lia. done.
  - destruct Hb2 as (y & Hy & ->); [lia|].
    destruct (decide (k < n)%nat) as [Hk'|Hk'].
    + rewrite Ha1 by done. lia.
    + destruct Ha2 as (x & Hx & ->); [lia|].
      replace (S k - n)%nat with (S (k - n)) in Hy by lia.
      pose proof (IH (k - n)%nat ltac:(lia) x y Hx Hy). lia.
Qed.

(** X7.  With a clock that never goes back, strict mode keeps the order of
    the calls: the effective timestamps never go back, none is before the
    reading of the clock of its call, and the remembered sequence is in
    order (oldest first). *)
Theorem strict_stamps_nondecreasing nows th :
  0 < limit th -> 0 <= interval th -> strictTicks th = [] ->
  nondecreasing nows ->
  exists stamps th',
    strictRun nows th = Some (stamps, th') /\
    nondecreasing stamps /\
    nondecreasing (strictTicks th') /\
    forall k now r, nows !! k = Some now -> stamps !! k = Some r -> now <= r.
Proof.
  intros Hl Hi Hnil Hnows.
  destruct (strictRun_stamped nows th Hl Hnil) as (stamps & th' & Hrun & Hst).
  destruct (strictRun_invariant nows th Hl Hnil)
    as (stamps' & th1' & Hrun' & _ & _ & Hticks & _).
  rewrite Hrun in Hrun'. simplify_eq.
  pose proof (strictRun_length _ _ _ _ Hrun) as Hlen.
  assert (Hsorted : nondecreasing stamps').
  { eapply stamped_nondecreasing; [| |done|done|done]; lia. }
  exists stamps', th1'. split; [done|]. split; [done|]. split.
  - rewrite Hticks. by apply nondecreasing_drop.
  - intros k now r Hnow Hr. destruct (Hst k now r Hnow Hr) as [H1 H2].
    destruct (decide (k < Z.to_nat (limit th))%nat) as [Hk|Hk].
    + rewrite H1 by done. lia.
    + destruct H2 as (a & _ & ->); lia.
Qed.

(** X8.  A burst in strict mode: of [n] calls made at the same instant [now]
    through a new engine, call number [k] (from 0) is stamped [now + (k /
    limit) * interval]. *)
Theorem strict_burst n now th :
  0 < limit th -> 0 <= interval th -> strictTicks th = [] ->
  exists th',
    strictRun (replicate n now) th =
    Some ((fun k => now + Z.of_nat k / limit th * interval th) <$> seq 0 n,
          th').
Proof.
  intros Hl Hi Hnil.
  destruct (strictRun_stamped (replicate n now) th Hl Hnil)
    as (stamps & th' & Hrun & Hst).
  pose proof (strictRun_length _ _ _ _ Hrun) as Hlen.
  rewrite length_replicate in Hlen.
  exists th'. rewrite Hrun. do 2 f_equal.
  apply list_eq. intros k. rewrite list_lookup_fmap.
  destruct (decide (k < n)%nat) as [Hk|Hk].
  2:{ rewrite lookup_seq_ge by lia. apply lookup_ge_None_2. lia. }
  rewrite lookup_seq_lt by done. simpl.
  revert Hk. induction k as [k IH] using lt_wf_ind. intros Hk.
  destruct (lookup_lt_is_Some_2 stamps k) as [r Hr]; [lia|].
  rewrite Hr. f_equal.
  destruct (Hst k now r (lookup_replicate_2 _ _ _ Hk) Hr) as [H1 H2].
  destruct (decide (k < Z.to_nat (limit th))%nat) as [HkL|HkL].
  - rewrite H1 by done. rewrite Z.div_small by lia. lia.
  - destruct H2 as (a & Ha & ->); [lia|].
    rewrite IH in Ha by lia. simplify_eq.
    replace (Z.of_nat (k - Z.to_nat (limit th)))
      with (Z.of_nat k + (-1) * limit th) by lia.
    rewrite Z.div_add by lia.
    assert (1 <= Z.of_nat k / limit th).
    { apply Z.div_le_lower_bound; lia. }
    nia.
Qed.

End StrictMore.

(** * More about the windowed calculator *)

Section WindowedMore.
Implicit Types (th : Throttle) (stamps nows : list Z).

(** X2.  A windowed call is stamped with the start of the window it is
    counted in, and the host runs it inside that window, at the earliest;
    the start of the window never goes back, and when it moves it moves by
    at least [interval]. *)
Theorem windowed_call_in_window now th :
  0 <= interval th ->
  let '(d, th') := windowedDelay now th in
  now + d = currentTick th' /\
  currentTick th' <= earliest_run now d <= currentTick th' + interval th /\
  (currentTick th' = currentTick th \/
   currentTick th + interval th <= currentTick th').
Proof.
  intros Hi. unfold windowedDelay, earliest_run.
  repeat case_decide; simpl; lia.
Qed.

Lemma windowedRun_snoc nows now th :
  windowedRun (nows ++ [now]) th =
  let '(ds, th1) := windowedRun nows th in
  let '(d, th2) := windowedDelay now th1 in
  (ds ++ [d], th2).
Proof.
  revert th. induction nows as [|n nows IH]; intros th; simpl.
  - by destruct (windowedDelay now th).
  - destruct (windowedDelay n th) as [d th1]. rewrite IH.
    destruct (windowedRun nows th1) as [ds th2].
    by destruct (windowedDelay now th2).
Qed.

Lemma windowedRun_length nows th :
  length (windowedRun nows th).1 = length nows.
Proof.
  revert th. induction nows as [|n nows IH]; intros th; simpl; [done|].
  destruct (windowedDelay n th) as [d th1]. specialize (IH th1).
  destruct (windowedRun nows th1) as [ds th2]. simpl in *. by f_equal.
Qed.

Lemma windowedStamps_snoc nows now th :
  windowedStamps (nows ++ [now]) th =
  windowedStamps nows th ++
    [now + (windowedDelay now (windowedRun nows th).2).1].
Proof.
  unfold windowedStamps. rewrite windowedRun_snoc.
  pose proof (windowedRun_length nows th) as Hlen.
  destruct (windowedRun nows th) as [ds th1]. simpl in *.
  destruct (windowedDelay now th1) as [d th2]. simpl.
  by rewrite zip_with_app.
Qed.

Lemma windowedRun_snoc_state nows now th :
  (windowedRun (nows ++ [now]) th).2 =
  (windowedDelay now (windowedRun nows th).2).2.
Proof.
  rewrite windowedRun_snoc. destruct (windowedRun nows th) as [ds th1].
  simpl. by destruct (windowedDelay now th1).
Qed.

(** X1.  Over any sequence of calls the count of the current window stays
    between 0 and [limit], and from the first call on it is at least 1;
    [limit] and [interval] never change. *)
Theorem windowed_count_bounds nows th :
  0 < limit th -> 0 <= activeCount th <= limit th ->
  limit (windowedRun nows th).2 = limit th /\
  interval (windowedRun nows th).2 = interval th /\
  0 <= activeCount (windowedRun nows th).2 <= limit th /\
  (nows ≠ [] -> 1 <= activeCount (windowedRun nows th).2).
Proof.
  intros Hl Hac. induction nows as [|now nows IH] using rev_ind; [done|].
  rewrite windowedRun_snoc_state.
  destruct IH as (HL & HI & Hcount & _).
  set (th1 := (windowedRun nows th).2) in *.
  unfold windowedDelay. repeat case_decide; simpl; repeat split; lia.
Qed.

Lemma length_filter_le (P Q : Z -> Prop)
    `{!forall x, Decision (P x)} `{!forall x, Decision (Q x)} (l : list Z) :
  (forall e, e ∈ l -> P e -> Q e) ->
  (length (filter P l) <= length (filter Q l))%nat.
Proof.
  induction l as [|x l IH]; intros HPQ; [done|].
  assert (IH' : (length (filter P l) <= length (filter Q l))%nat).
  { apply IH. intros e He. apply HPQ. by right. }
  destruct (decide (P x)) as [HP|HP].
  - rewrite filter_cons_True by done.
    rewrite (filter_cons_True Q) by (apply HPQ; [by left|done]).
    simpl. lia.
  - rewrite filter_cons_False by done.
    destruct (decide (Q x)).
    + rewrite (filter_cons_True Q) by done. simpl. lia.
    + by rewrite (filter_cons_False Q).
Qed.

Lemma filter_nothing (P : Z -> Prop) `{!forall x, Decision (P x)} (l : list Z) :
  (forall e, e ∈ l -> ~ P e) -> filter P l = [].
Proof.
  induction l as [|x l IH]; intros HP; [done|].
  rewrite filter_cons_False by (apply HP; by left).
  apply IH. intros e He. apply HP. by right.
Qed.

Lemma nondecreasing_snoc (l : list Z) x :
  nondecreasing l -> (forall e, e ∈ l -> e <= x) -> nondecreasing (l ++ [x]).
Proof.
  intros Hl Hx i j a b Hij Ha Hb.
  destruct (decide (j < length l)%nat) as [Hj|Hj].
  - rewrite lookup_app_l in Ha, Hb by lia. exact (Hl i j a b Hij Ha Hb).
  - pose proof (lookup_lt_Some _ _ _ Hb) as Hj'.
    rewrite length_app in Hj'. simpl in Hj'.
    assert (j = length l) as -> by lia.
    rewrite lookup_app_r, Nat.sub_diag in Hb by lia. simplify_eq/=.
    destruct (decide (i < length l)%nat) as [Hi|Hi].
    + rewrite lookup_app_l in Ha by lia.
      apply Hx. by eapply list_elem_of_lookup_2.
    + assert (i = length l) as -> by lia.
      rewrite lookup_app_r, Nat.sub_diag in Ha by lia. by simplify_eq/=.
Qed.

Lemma windowedRun_invariant nows th :
  0 < limit th -> 0 < interval th -> activeCount th = 0 ->
  let th1 := (windowedRun nows th).2 in
  let stamps := windowedStamps nows th in
  limit th1 = limit th /\ interval th1 = interval th /\
  (forall e, e ∈ stamps ->
     e = currentTick th1 \/ e + interval th <= currentTick th1) /\
  Z.of_nat (length (filter (fun e => e = currentTick th1) stamps))
    = activeCount th1 /\
  activeCount th1 <= limit th /\
  nondecreasing stamps /\
  forall t, Z.of_nat (length (in_window t (interval th) stamps)) <= limit th.
Proof.
  intros Hl Hi Hac. induction nows as [|now nows IH] using rev_ind.
  - simpl. unfold windowedStamps. simpl. rewrite Hac.
    repeat apply conj; try done; try lia.
    intros e He. by apply elem_of_nil in He.
  - simpl in *. rewrite windowedStamps_snoc, windowedRun_snoc_state.
    destruct IH as (HL & HI & Hold & Hcnt & Hle & Hsorted & Hwin).
    set (th1 := (windowedRun nows th).2) in *.
    set (stamps := windowedStamps nows th) in *.
    assert (Hbelow : forall e, e ∈ stamps -> e <= currentTick th1).
    { intros e He. destruct (Hold e He); lia. }
    pose proof (windowed_call_in_window now th1 ltac:(lia)) as Hcall.
    destruct (windowedDelay now th1) as [d th2] eqn:Hd.
    destruct Hcall as (Hstamp & _ & Hmove). simpl. rewrite Hstamp.
    assert (Hframe : limit th2 = limit th1 /\ interval th2 = interval th1).
    { unfold windowedDelay in Hd. repeat case_decide; by simplify_eq/=. }
    destruct Hframe as [HL2 HI2]. rewrite HL2, HI2.
    assert (Hac2 : (currentTick th2 = currentTick th1 /\
                    activeCount th2 = activeCount th1 + 1 /\
                    activeCount th1 < limit th1) \/
                   (currentTick th1 + interval th1 <= currentTick th2 /\
                    activeCount th2 = 1)).
    { unfold windowedDelay in Hd. repeat case_decide; simplify_eq/=; lia. }
    split; [done|]. split; [done|].
    unfold in_window in *. setoid_rewrite filter_app.
    setoid_rewrite length_app.
    destruct Hac2 as [(Hct & Hac2 & Hlt)|(Hct & Hac2)].
    + (* the call is admitted into the current window *)
      rewrite Hct, Hac2. repeat apply conj.
      * intros e [He| ->%list_elem_of_singleton]%elem_of_app; [|by left].
        by apply Hold.
      * rewrite filter_cons_True, filter_nil by done. simpl. lia.
      * lia.
      * apply nondecreasing_snoc; [done|]. apply Hbelow.
      * intros t. destruct (decide (t <= currentTick th1 < t + interval th)).
        -- rewrite (filter_cons_True _ (currentTick th1)) by done.
           rewrite filter_nil. simpl.
           assert (length (filter (fun e => (t <= e < t + interval th)%Z)
                                  stamps)
                   <= length (filter (fun e => e = currentTick th1)
                                     stamps))%nat.
           { apply length_filter_le. intros e He Hw.
             destruct (Hold e He); lia. }
           lia.
        -- rewrite (filter_cons_False _ (currentTick th1)) by done.
           rewrite filter_nil. simpl. specialize (Hwin t). lia.
    + (* the call opens a window *)
      rewrite Hac2. repeat apply conj.
      * intros e [He| ->%list_elem_of_singleton]%elem_of_app; [|by left].
        right. destruct (Hold e He); lia.
      * rewrite (filter_nothing _ stamps).
        -- rewrite filter_cons_True, filter_nil by done. done.
        -- intros e He%Hbelow. lia.
      * lia.
      * apply nondecreasing_snoc; [done|]. intros e He%Hbelow. lia.
      * intros t. destruct (decide (t <= currentTick th2 < t + interval th)).
        -- rewrite (filter_nothing _ stamps).
           ++ rewrite filter_cons_True, filter_nil by done. simpl. lia.
           ++ intros e He%Hbelow. lia.
        -- rewrite (filter_cons_False _ (currentTick th2)) by done.
           rewrite filter_nil. simpl. specialize (Hwin t). lia.
Qed.

(** X3.  Windowed mode, over the whole life of an engine, for whatever
    readings of the clock: the stamps of the calls (the starts of their
    windows) never go back, and every window [[t, t + interval)] holds at
    most [limit] of them. *)
Theorem windowed_window_bound nows th :
  0 < limit th -> 0 < interval th -> activeCount th = 0 ->
  nondecreasing (windowedStamps nows th) /\
  forall t,
    Z.of_nat (length (in_window t (interval th) (windowedStamps nows th)))
      <= limit th.
Proof.
  intros Hl Hi Hac.
  destruct (windowedRun_invariant nows th Hl Hi Hac)
    as (_ & _ & _ & _ & _ & Hsorted & Hwin).
  by split.
Qed.

(** A burst, from the state after [k0] calls of it: the window has moved
    [q] times and holds the last [r + 1] calls. *)
Lemma windowed_burst_from n now th k0 q r :
  0 < limit th -> 0 <= interval th ->
  0 <= q -> 0 <= r < limit th -> k0 - 1 = limit th * q + r ->
  currentTick th = now + q * interval th -> activeCount th = r + 1 ->
  length (windowedRun (replicate n now) th).1 = n /\
  forall j d,
    (windowedRun (replicate n now) th).1 !! j = Some d ->
    d = (k0 + Z.of_nat j) / limit th * interval th.
Proof.
  revert th k0 q r.
  induction n as [|n IH]; intros th k0 q r Hl Hi Hq Hr Hk Hct Hac; [done|].
  simpl.
  assert (Hnot : ~ now - currentTick th > interval th) by nia.
  destruct (decide (activeCount th < limit th)) as [Hlt|Hge].
  - (* admitted into the current window *)
    assert (Hd : windowedDelay now th =
                 (q * interval th,
                  with_window (currentTick th) (activeCount th + 1) th)).
    { unfold windowedDelay. rewrite decide_False, decide_True by done.
      simpl. f_equal. lia. }
    rewrite Hd.
    destruct (IH (with_window (currentTick th) (activeCount th + 1) th)
                 (k0 + 1) q (r + 1)) as [Hlen Hrest];
      simpl; try lia.
    destruct (windowedRun (replicate n now) _) as [ds th2]. simpl in *.
    split; [by f_equal|]. intros [|j] d Hj; simplify_eq/=.
    + rewrite Z.add_0_r. f_equal.
      apply (Z.div_unique_pos k0 (limit th) q (r + 1)); lia.
    + rewrite (Hrest j d Hj). do 2 f_equal. lia.
  - (* the window is full: the next one opens *)
    assert (Hd : windowedDelay now th =
                 ((q + 1) * interval th,
                  with_window (currentTick th + interval th) 1 th)).
    { unfold windowedDelay. rewrite !decide_False by done.
      simpl. f_equal. lia. }
    rewrite Hd.
    destruct (IH (with_window (currentTick th + interval th) 1 th)
                 (k0 + 1) (q + 1) 0) as [Hlen Hrest];
      simpl; try lia.
    destruct (windowedRun (replicate n now) _) as [ds th2]. simpl in *.
    split; [by f_equal|]. intros [|j] d Hj; simplify_eq/=.
    + rewrite Z.add_0_r. f_equal.
      apply (Z.div_unique_pos k0 (limit th) (q + 1) 0); lia.
    + rewrite (Hrest j d Hj). do 2 f_equal. lia.
Qed.

(** X4.  A burst in windowed mode: [n] calls made at the same instant [now],
    the first of which opens a window (as the first call through a new
    engine does: [currentTick] is 0 and the clock is far past [interval]).
    Call number [k] (from 0) is delayed by [(k / limit) * interval]. *)
Theorem windowed_burst n now th :
  0 < limit th -> 0 <= interval th ->
  now - currentTick th > interval th ->
  (windowedRun (replicate n now) th).1 =
  (fun k => Z.of_nat k / limit th * interval th) <$> seq 0 n.
Proof.
  intros Hl Hi Hfirst. destruct n as [|n]; [done|].
  simpl.
  assert (Hd : windowedDelay now th = (0, with_window now 1 th)).
  { unfold windowedDelay. by rewrite decide_True. }
  rewrite Hd.
  destruct (windowed_burst_from n now (with_window now 1 th) 1 0 0)
    as [Hlen Hrest]; simpl; try lia.
  destruct (windowedRun (replicate n now) _) as [ds th2]. simpl in *.
  rewrite Z.div_0_l by lia. f_equal; try lia.
  rewrite <- fmap_S_seq, <- list_fmap_compose.
  apply list_eq. intros j. rewrite list_lookup_fmap.
  destruct (decide (j < n)%nat) as [Hj|Hj].
  - rewrite lookup_seq_lt by done. simpl.
    destruct (lookup_lt_is_Some_2 ds j) as [d Hdj]; [lia|].
    rewrite Hdj, (Hrest j d Hdj). do 3 f_equal. lia.
  - rewrite lookup_seq_ge by lia. apply lookup_ge_None_2. lia.
Qed.

End WindowedMore.

(** * What holds in every world the engine reaches *)

Section Reachable.
Context {Arg Val Exn : Type}.
Implicit Types (W : World Arg Val Exn) (wr : Wrapper Arg Val Exn).
Implicit Types (ts : list (option (Timer Arg Val Exn))).
Implicit Types (ps : list (Settlement Val Exn)) (q : Map) (th : Throttle).

Lemma elem_of_Map_delete k q t p :
  (t, p) ∈ Map_delete k q <-> (t, p) ∈ q /\ t ≠ k.
Proof.
  induction q as [|[k' v'] q IH]; simpl.
  - split; [intros H; by apply elem_of_nil in H|intros [H _]; done].
  - case_decide as Hk; rewrite ?elem_of_cons, IH; intuition congruence.
Qed.

Lemma resolve_lookup ps p0 (v : Val) p :
  resolve p0 v ps !! p =
  (if decide (p = p0)
   then (fun s => match s with Pending => Resolved v | _ => s end)
   else id) <$> ps !! p.
Proof.
  unfold resolve. case_decide as Hp.
  - subst p0. destruct (ps !! p) as [[]|] eqn:E; simpl; rewrite ?E; try done.
    rewrite list_lookup_insert_eq; [done|]. by eapply lookup_lt_Some.
  - destruct (ps !! p0) as [[]|] eqn:E; simpl;
      rewrite ?list_lookup_insert_ne by done; by destruct (ps !! p).
Qed.

Lemma queued_bounds W c t p :
  world_ok W -> queued W c t p ->
  (t < length (timers W))%nat /\ (p < length (promises W))%nat.
Proof.
  intros Hok (th & Hth & Hin).
  destruct (world_ok_lookup _ _ _ Hok Hth) as [_ Hall].
  rewrite Forall_forall in Hall. by apply (Hall _ Hin).
Qed.

Lemma world_inv_empty : world_inv (@empty_world Arg Val Exn).
Proof.
  split; try (by intros * (th & Hth & _)); try done.
  apply world_ok_empty.
Qed.

(** The queues after each operation. *)
Lemma queued_pThrottle o W W' c0 c t p :
  pThrottle o W = Normal (W', c0) -> queued W' c t p <-> queued W c t p.
Proof.
  unfold pThrottle, queued. intros H. repeat case_match; simplify_eq/=.
  split; intros (th & Hth & Hin); exists th; (split; [|done]).
  - apply lookup_app_Some in Hth as [Hth|[_ Hth]]; [done|].
    apply list_lookup_singleton_Some in Hth as [_ <-].
    by apply elem_of_nil in Hin.
  - by apply lookup_app_l_Some.
Qed.

Lemma queued_fire_throws t0 W W' e tm c t p :
  timers W !! t0 = Some (Some tm) ->
  timer_function tm (timer_args tm) = Throws e ->
  fire t0 W = Some (W', Some e) ->
  queued W' c t p <-> queued W c t p.
Proof.
  unfold fire, queued. intros -> -> H. by simplify_eq/=.
Qed.

Lemma queued_throttled wr now a W W' r c t p :
  world_ok W -> throttled wr now a W = Some (W', r) ->
  queued W' c t p <->
  queued W c t p \/
  (isEnabled wr = true /\ c = closure wr /\
   t = length (timers W) /\ p = length (promises W)).
Proof.
  intros Hok. unfold throttled, queued.
  destruct (isEnabled wr); simpl.
  2:{ intros ?; simplify_eq/=. split; [by left|by intros [?|(? & _)]]. }
  destruct (closures W !! closure wr) as [th0|] eqn:Hth0; [|done].
  destruct (getDelay now th0) as [[d th1]|] eqn:Hd; [|done].
  intros ?; simplify_eq/=.
  pose proof (getDelay_frame _ _ _ _ Hd) as (Hq & _).
  pose proof (queue_ok_fresh _ _ _ (world_ok_lookup _ _ _ Hok Hth0)) as Hfresh.
  pose proof (lookup_lt_Some _ _ _ Hth0) as Hlt.
  rewrite Hq, Map_set_fresh by done.
  destruct (decide (c = closure wr)) as [->|Hne].
  - rewrite list_lookup_insert_eq by done. split.
    + intros (th & ? & Hin); simplify_eq/=.
      apply elem_of_app in Hin as [Hin|Hin%list_elem_of_singleton].
      * left. eauto.
      * right. by simplify_eq.
    + intros [(th & Hth & Hin)|(_ & _ & -> & ->)].
      * simplify_eq. eexists. split; [done|]. simpl.
        apply elem_of_app. by left.
      * eexists. split; [done|]. simpl. apply elem_of_app. right.
        by apply list_elem_of_singleton.
  - rewrite list_lookup_insert_ne by done.
    split; [by left|by intros [?|(_ & ? & _)]].
Qed.

Lemma queued_fire_returns t0 W W' tm v c t p :
  timers W !! t0 = Some (Some tm) ->
  timer_function tm (timer_args tm) = Returns v ->
  fire t0 W = Some (W', None) ->
  queued W' c t p <->
  queued W c t p /\ ~ (c = timer_closure tm /\ t = t0).
Proof.
  unfold fire, queued. intros -> ->.
  destruct (closures W !! timer_closure tm) as [th0|] eqn:Hth0; [|done].
  intros ?; simplify_eq/=.
  pose proof (lookup_lt_Some _ _ _ Hth0) as Hlt.
  destruct (decide (c = timer_closure tm)) as [->|Hne].
  - rewrite list_lookup_insert_eq by done. split.
    + intros (th & ? & Hin); simplify_eq/=.
      apply elem_of_Map_delete in Hin as [Hin Ht]. split; [eauto|].
      by intros [_ ?].
    + intros [(th & Hth & Hin) Hnot]. simplify_eq.
      eexists. split; [done|]. simpl. apply elem_of_Map_delete.
      split; [done|]. intros ->. by apply Hnot.
  - rewrite list_lookup_insert_ne by done.
    split; [intros ?; split; [done|by intros [? _]]|by intros [? _]].
Qed.

Lemma queued_abort wr W W' c t p :
  abort wr W = Some W' ->
  queued W' c t p <-> queued W c t p /\ c ≠ closure wr.
Proof.
  unfold abort, queued.
  destruct (closures W !! closure wr) as [th0|] eqn:Hth0; [|done].
  intros ?; simplify_eq/=.
  pose proof (lookup_lt_Some _ _ _ Hth0) as Hlt.
  destruct (decide (c = closure wr)) as [->|Hne].
  - rewrite list_lookup_insert_eq by done. split.
    + intros (th & ? & Hin); simplify_eq/=. by apply elem_of_nil in Hin.
    + by intros [_ ?].
  - rewrite list_lookup_insert_ne by done.
    split; [by intros ?|by intros [? _]].
Qed.

Lemma world_inv_pThrottle o W W' c0 :
  world_inv W -> pThrottle o W = Normal (W', c0) -> world_inv W'.
Proof.
  intros [Hok Hpend Htimer Hp1 Ht1 Hset] H.
  pose proof (pThrottle_ok _ _ _ _ Hok H) as Hok'.
  assert (Hq : forall c t p, queued W' c t p <-> queued W c t p).
  { intros. by eapply queued_pThrottle. }
  assert (Hsame : timers W' = timers W /\ promises W' = promises W).
  { unfold pThrottle in H. repeat case_match; by simplify_eq/=. }
  destruct Hsame as [Hts Hps].
  split; [done|..]; setoid_rewrite Hq; rewrite ?Hts, ?Hps; done.
Qed.

Lemma world_inv_throttled wr now a W W' r :
  world_inv W -> throttled wr now a W = Some (W', r) -> world_inv W'.
Proof.
  intros [Hok Hpend Htimer Hp1 Ht1 Hset] H.
  pose proof (throttled_ok _ _ _ _ _ _ Hok H) as Hok'.
  pose proof (fun c t p => queued_throttled wr now a W W' r c t p Hok H) as Hq.
  assert (Hb : forall c t p, queued W c t p ->
            (t < length (timers W))%nat /\ (p < length (promises W))%nat).
  { intros c t p. by apply queued_bounds. }
  unfold throttled in H. destruct (isEnabled wr) eqn:Hon; simpl in H.
  - destruct (closures W !! closure wr) as [th0|] eqn:Hth0; [|done].
    destruct (getDelay now th0) as [[d th1]|] eqn:Hd; [|done].
    simplify_eq/=. split; [done|..]; simpl.
    + intros c t p [Hold|(_ & -> & -> & ->)]%Hq.
      * apply lookup_app_l_Some. by eapply Hpend.
      * rewrite lookup_app_r by done. by rewrite Nat.sub_diag.
    + intros t tm Htm. apply Hq.
      apply lookup_app_Some in Htm as [Htm|[Hlen Htm]].
      * left. by apply Htimer.
      * apply list_lookup_singleton_Some in Htm as [Ht Htm].
        simplify_eq/=. right. repeat split. lia.
    + intros c c' t t' p [H1|(_ & E1 & E2 & E3)]%Hq
                          [H2|(_ & E4 & E5 & E6)]%Hq.
      * by eapply Hp1.
      * apply Hb in H1. lia.
      * apply Hb in H2. lia.
      * split; congruence.
    + intros c c' t p p' [H1|(_ & E1 & E2 & E3)]%Hq
                         [H2|(_ & E4 & E5 & E6)]%Hq.
      * by eapply Ht1.
      * apply Hb in H1. lia.
      * apply Hb in H2. lia.
      * split; congruence.
    + intros p Hp. apply lookup_app_Some in Hp as [Hp|[Hlen Hp]].
      * destruct (Hset p Hp) as (c & t & Hc). exists c, t. apply Hq. by left.
      * apply list_lookup_singleton_Some in Hp as [Hp _].
        exists (closure wr), (length (timers W)). apply Hq. right.
        repeat split. lia.
  - simplify_eq/=.
    assert (Hq' : forall c t p,
      queued (mkWorld (closures W) (timers W)
                (promises W ++ [async_call (function_ wr a)])) c t p <->
      queued W c t p).
    { intros c t p. rewrite Hq.
      split; [by intros [?|(? & _)]|by left]. }
    split; [done|..]; simpl.
    + intros c t p Hc%Hq'. apply lookup_app_l_Some. by eapply Hpend.
    + intros t tm Htm. apply Hq'. by apply Htimer.
    + intros c c' t t' p H1%Hq' H2%Hq'. by eapply Hp1.
    + intros c c' t p p' H1%Hq' H2%Hq'. by eapply Ht1.
    + intros p Hp. apply lookup_app_Some in Hp as [Hp|[Hlen Hp]].
      * destruct (Hset p Hp) as (c & t & Hc). exists c, t. by apply Hq'.
      * apply list_lookup_singleton_Some in Hp as [_ Hp].
        unfold async_call in Hp. by destruct (function_ wr a).
Qed.

Lemma world_inv_fire t0 W W' e :
  world_inv W -> fire t0 W = Some (W', e) -> world_inv W'.
Proof.
  intros [Hok Hpend Htimer Hp1 Ht1 Hset] H.
  pose proof (fire_ok _ _ _ _ Hok H) as Hok'.
  destruct (timers W !! t0) as [[tm|]|] eqn:Htm;
    [|unfold fire in H; by rewrite Htm in H..].
  pose proof (Htimer _ _ Htm) as Hq0.
  assert (Hts : forall t tm', timers W' !! t = Some (Some tm') ->
                  t ≠ t0 /\ timers W !! t = Some (Some tm')).
  { intros t tm' Ht. unfold fire in H. rewrite Htm in H.
    assert (timers W' = <[t0 := None]> (timers W)) as Hts'.
    { repeat case_match; by simplify_eq/=. }
    rewrite Hts' in Ht.
    apply list_lookup_insert_Some in Ht as [(_ & ? & _)|[Hne ?]]; [done|].
    split; [by intros ->|done]. }
  destruct (timer_function tm (timer_args tm)) as [v|x] eqn:Hf.
  - (* the function returns *)
    assert (e = None) as ->.
    { unfold fire in H. rewrite Htm, Hf in H.
      repeat case_match; by simplify_eq. }
    pose proof (fun c t p =>
      queued_fire_returns t0 W W' tm v c t p Htm Hf H) as Hq.
    assert (Hps : promises W' = resolve (timer_promise tm) v (promises W)).
    { unfold fire in H. rewrite Htm, Hf in H.
      repeat case_match; by simplify_eq/=. }
    split; [done|..].
    + intros c t p [Hc Hnot]%Hq. rewrite Hps, resolve_lookup.
      rewrite (Hpend _ _ _ Hc). case_decide as Hp; [|done].
      subst p. destruct (Hp1 _ _ _ _ _ Hc Hq0) as [-> ->]. by destruct Hnot.
    + intros t tm' [Hne Ht]%Hts. apply Hq. split; [by apply Htimer|].
      by intros [_ ?].
    + intros c c' t t' p [H1 _]%Hq [H2 _]%Hq. by eapply Hp1.
    + intros c c' t p p' [H1 _]%Hq [H2 _]%Hq. by eapply Ht1.
    + intros p Hp. rewrite Hps, resolve_lookup in Hp.
      destruct (promises W !! p) as [s|] eqn:Hs; [|done].
      case_decide as Hpp; simpl in Hp; [by destruct s|].
      simplify_eq/=. destruct (Hset p Hs) as (c & t & Hc).
      exists c, t. apply Hq. split; [done|]. intros [-> ->].
      destruct (Ht1 _ _ _ _ _ Hc Hq0) as [_ ->]. done.
  - (* the function throws *)
    assert (e = Some x) as ->.
    { unfold fire in H. rewrite Htm, Hf in H. by simplify_eq. }
    pose proof (fun c t p =>
      queued_fire_throws t0 W W' x tm c t p Htm Hf H) as Hq.
    assert (Hps : promises W' = promises W).
    { unfold fire in H. rewrite Htm, Hf in H. by simplify_eq/=. }
    split; [done|..]; try (setoid_rewrite Hq; rewrite ?Hps; done).
    intros t tm' [Hne Ht]%Hts. apply Hq. by apply Htimer.
Qed.

Lemma world_inv_abort wr W W' :
  world_inv W -> abort wr W = Some W' -> world_inv W'.
Proof.
  intros [Hok Hpend Htimer Hp1 Ht1 Hset] H.
  pose proof (abort_ok _ _ _ Hok H) as Hok'.
  pose proof (fun c t p => queued_abort wr W W' c t p H) as Hq.
  unfold abort in H.
  destruct (closures W !! closure wr) as [th0|] eqn:Hth0; [|done].
  rewrite abort_loop in H. simplify_eq/=.
  assert (Hvals : forall p, p ∈ (queue th0).*2 ->
            exists t, queued W (closure wr) t p).
  { intros p ([t p'] & -> & Hin)%list_elem_of_fmap. exists t, th0. done. }
  assert (Hkeys : forall t p, queued W (closure wr) t p ->
            t ∈ Map_keys (queue th0) /\ p ∈ (queue th0).*2).
  { intros t p (th & Hth & Hin). simplify_eq. unfold Map_keys.
    split; apply list_elem_of_fmap; by exists (t, p). }
  split; [done|..]; simpl.
  - intros c t p [Hc Hne]%Hq. rewrite reject_all_lookup.
    rewrite (Hpend _ _ _ Hc). rewrite decide_False; [done|].
    intros (t' & Hc')%Hvals. by destruct (Hp1 _ _ _ _ _ Hc Hc').
  - intros t tm Htm. rewrite clear_all_lookup in Htm.
    case_decide as Hin; [by destruct (timers W !! t)|].
    apply Hq. split; [by apply Htimer|].
    intros Hc. apply Htimer in Htm. rewrite Hc in Htm.
    by apply Hkeys in Htm as [? _].
  - intros c c' t t' p [H1 _]%Hq [H2 _]%Hq. by eapply Hp1.
  - intros c c' t p p' [H1 _]%Hq [H2 _]%Hq. by eapply Ht1.
  - intros p Hp. rewrite reject_all_lookup in Hp.
    destruct (promises W !! p) as [s|] eqn:Hs; [|done].
    case_decide as Hin; simpl in Hp; [by destruct s|].
    simplify_eq/=. destruct (Hset p Hs) as (c & t & Hc).
    exists c, t. apply Hq. split; [done|]. intros ->.
    by apply Hkeys in Hc as [_ ?].
Qed.

Lemma reachable_inv W : reachable W -> world_inv W.
Proof.
  induction 1;
    eauto using world_inv_empty, world_inv_pThrottle, world_inv_throttled,
                world_inv_fire, world_inv_abort.
Qed.

End Reachable.

Section ReachableFacts.
Context {Arg Val Exn : Type}.
Implicit Types (W : World Arg Val Exn) (wr : Wrapper Arg Val Exn).
Implicit Types (th : Throttle) (q : Map).

(** X16.  In every world the engine reaches, the promise of a queued call is
    still pending, and neither its promise nor its timer handle is queued
    anywhere else. *)
Theorem queued_call_is_pending W c t p :
  reachable W -> queued W c t p ->
  promises W !! p = Some Pending /\
  (forall c' t', queued W c' t' p -> c' = c /\ t' = t) /\
  (forall c' p', queued W c' t p' -> c' = c /\ p' = p).
Proof.
  intros [_ Hpend _ Hp1 Ht1 _]%reachable_inv Hq.
  split; [by eapply Hpend|]. split.
  - intros c' t' Hq'. by destruct (Hp1 _ _ _ _ _ Hq Hq') as [-> ->].
  - intros c' p' Hq'. by destruct (Ht1 _ _ _ _ _ Hq Hq') as [-> ->].
Qed.

(** X17.  In every world the engine reaches, a promise of the engine on
    which neither [resolve] nor [reject] has been called yet (the
    [Pending] of the model; a promise resolved with a promise that is not
    settled is not one of them) is the promise of a queued call. *)
Theorem pending_promise_is_queued W p :
  reachable W -> promises W !! p = Some Pending ->
  exists c t, queued W c t p.
Proof. intros [_ _ _ _ _ Hset]%reachable_inv. apply Hset. Qed.

(** X18.  In every world the engine reaches, a timer that has not fired and
    was not cleared is the timer of a call queued in the closure of its
    wrapper, and it can fire. *)
Theorem live_timer_is_queued W t tm :
  reachable W -> timers W !! t = Some (Some tm) ->
  queued W (timer_closure tm) t (timer_promise tm) /\ is_Some (fire t W).
Proof.
  intros [_ _ Htimer _ _ _]%reachable_inv Htm.
  pose proof (Htimer _ _ Htm) as Hq. split; [done|].
  destruct Hq as (th & Hth & _). unfold fire. rewrite Htm, Hth.
  by destruct (timer_function tm (timer_args tm)).
Qed.

(** X10.  When the timer of a call fires and the wrapped function returns
    [v], the promise of the call, and no other, is resolved with [v], and
    its closure has one queued call fewer. *)
Theorem fire_resolves_call W t tm v :
  reachable W -> timers W !! t = Some (Some tm) ->
  timer_function tm (timer_args tm) = Returns v ->
  exists W' th,
    fire t W = Some (W', None) /\
    promises W' !! timer_promise tm = Some (Resolved v) /\
    (forall p, p ≠ timer_promise tm -> promises W' !! p = promises W !! p) /\
    closures W !! timer_closure tm = Some th /\
    closures W' !! timer_closure tm =
      Some (with_queue (Map_delete t (queue th)) th) /\
    S (Map_size (Map_delete t (queue th))) = Map_size (queue th).
Proof.
  intros Hinv%reachable_inv Htm Hret.
  destruct Hinv as [Hok Hpend Htimer _ _ _].
  pose proof (Htimer _ _ Htm) as Hq.
  pose proof (Hpend _ _ _ Hq) as Hp.
  destruct Hq as (th & Hth & Hin).
  destruct (fire_returns_dequeues t W tm th v Hok Htm Hth) as
    (W' & Hfire & Hth' & Hsize & Hps & _); [|done|].
  { unfold Map_keys. apply list_elem_of_fmap. by exists (t, timer_promise tm). }
  exists W', th. repeat apply conj; try done.
  - by rewrite Hps, resolve_lookup, decide_True, Hp.
  - intros p Hne. rewrite Hps, resolve_lookup, decide_False by done.
    by destruct (promises W !! p).
Qed.

(** X11.  When the wrapped function throws in the timer callback instead,
    the exception escapes to the host: the call stays queued with its
    promise pending, and its timer is gone. *)
Theorem fire_throw_leaves_call_queued W t tm e :
  reachable W -> timers W !! t = Some (Some tm) ->
  timer_function tm (timer_args tm) = Throws e ->
  exists W',
    fire t W = Some (W', Some e) /\ reachable W' /\
    queued W' (timer_closure tm) t (timer_promise tm) /\
    promises W' !! timer_promise tm = Some Pending /\
    fire t W' = None.
Proof.
  intros Hreach Htm Hthrow.
  destruct (fire_throws_keeps_entry t W tm e Htm Hthrow)
    as (W' & Hfire & Hcl & Hps & Hgone).
  pose proof (reach_fire _ _ _ _ Hreach Hfire) as Hreach'.
  destruct (reachable_inv _ Hreach) as [_ Hpend Htimer _ _ _].
  pose proof (Htimer _ _ Htm) as Hq.
  exists W'. repeat apply conj; try done.
  - unfold queued in *. by rewrite Hcl.
  - rewrite Hps. by eapply Hpend.
Qed.

(** X12.  In every world the engine reaches, [abort] rejects the promise of
    every call queued in the closure of the wrapper with an [AbortError],
    none of these calls can fire afterwards, nothing stays queued in that
    closure, and the calls queued in other closures stay queued. *)
Theorem abort_settles_closure wr W th :
  reachable W -> closures W !! closure wr = Some th ->
  exists W',
    abort wr W = Some W' /\
    (forall t p, (t, p) ∈ queue th ->
       promises W' !! p = Some (Rejected AbortError) /\ fire t W' = None) /\
    (forall t p, ~ queued W' (closure wr) t p) /\
    (forall c t p, c ≠ closure wr -> queued W' c t p <-> queued W c t p).
Proof.
  intros Hreach Hth.
  destruct (abort wr W) as [W'|] eqn:Habort;
    [|unfold abort in Habort; by rewrite Hth in Habort].
  pose proof (reach_abort _ _ _ Hreach Habort) as Hreach'.
  pose proof (fun c t p => queued_abort wr W W' c t p Habort) as Hq.
  destruct (reachable_inv _ Hreach) as [_ Hpend _ _ _ _].
  destruct (reachable_inv _ Hreach') as [_ _ _ _ _ Hset'].
  exists W'. split; [done|]. repeat apply conj.
  - intros t p Hin.
    assert (Hp : promises W !! p = Some Pending).
    { apply (Hpend (closure wr) t). by exists th. }
    unfold abort in Habort. rewrite Hth, abort_loop in Habort.
    simplify_eq/=. split.
    + rewrite reject_all_lookup, Hp, decide_True; [done|].
      apply list_elem_of_fmap. by exists (t, p).
    + unfold fire. simpl. rewrite clear_all_lookup, decide_True.
      * by destruct (timers W !! t).
      * unfold Map_keys. apply list_elem_of_fmap. by exists (t, p).
  - intros t p [_ Hne]%Hq. done.
  - intros c t p Hne. rewrite Hq. split; [by intros [? _]|done].
Qed.

(** X13.  A second [abort] changes nothing. *)
Theorem abort_idempotent wr W W' :
  abort wr W = Some W' -> abort wr W' = Some W'.
Proof.
  unfold abort.
  destruct (closures W !! closure wr) as [th|] eqn:Hth; [|done].
  pose proof (lookup_lt_Some _ _ _ Hth) as Hlt.
  intros ?; simplify_eq/=.
  rewrite list_lookup_insert_eq by done. simpl.
  by rewrite list_insert_insert_eq.
Qed.

Lemma Map_delete_snoc q t p :
  t ∉ Map_keys q -> Map_delete t (q ++ [(t, p)]) = q.
Proof.
  unfold Map_keys. induction q as [|[k v] q IH]; intros Ht; simpl.
  - by rewrite decide_True.
  - csimpl in Ht. apply not_elem_of_cons in Ht as [Hne Ht].
    rewrite decide_False by done. by rewrite IH.
Qed.

(** X14.  A call and its timer: a call through an enabled wrapper returns a
    new pending promise; when its timer fires and the wrapped function
    returns [v] for the arguments of the call, that promise is resolved with
    [v] and the queue is as long as before the call. *)
Theorem call_then_fire_resolves wr now a W th v :
  reachable W -> isEnabled wr = true ->
  closures W !! closure wr = Some th ->
  strict th = false \/ 0 < limit th ->
  function_ wr a = Returns v ->
  exists W1 W2 p,
    throttled wr now a W = Some (W1, Normal p) /\
    promises W !! p = None /\
    promises W1 !! p = Some Pending /\
    fire (length (timers W)) W1 = Some (W2, None) /\
    promises W2 !! p = Some (Resolved v) /\
    queueSize wr W2 = queueSize wr W.
Proof.
  intros Hreach Hon Hth Hlim Hret.
  destruct (reachable_inv _ Hreach) as [Hok _ _ _ _ _].
  destruct (throttled_enqueues wr now a W th Hok Hon Hth Hlim)
    as (W1 & d & th1 & Hcall & Hd & Hth1 & _ & Hts & Hps).
  pose proof (queue_ok_fresh _ _ _ (world_ok_lookup _ _ _ Hok Hth)) as Hfresh.
  pose proof (throttled_ok _ _ _ _ _ _ Hok Hcall) as Hok1.
  set (tm := mkTimer d (closure wr) (function_ wr) a (length (promises W))).
  assert (Htm : timers W1 !! length (timers W) = Some (Some tm)).
  { rewrite Hts, lookup_app_r, Nat.sub_diag by done. done. }
  assert (Hp : promises W1 !! length (promises W) = Some Pending).
  { rewrite Hps, lookup_app_r, Nat.sub_diag by done. done. }
  destruct (fire_returns_dequeues (length (timers W)) W1 tm _ v Hok1 Htm Hth1)
    as (W2 & Hfire & Hth2 & _ & Hps2 & _).
  { simpl. unfold Map_keys. rewrite fmap_app. apply elem_of_app.
    right. by left. }
  { done. }
  exists W1, W2, (length (promises W)). repeat apply conj; try done.
  - by apply lookup_ge_None_2.
  - by rewrite Hps2, resolve_lookup, decide_True, Hp.
  - unfold queueSize. simpl in Hth2. rewrite Hth2, Hth. simpl.
    by rewrite Map_delete_snoc.
Qed.

(** X15.  A call and [abort]: the promise of a call through an enabled
    wrapper is rejected with an [AbortError] by an [abort] that comes before
    its timer fires, the timer can no longer fire, and the queue is empty. *)
Theorem call_then_abort_rejects wr now a W th :
  reachable W -> isEnabled wr = true ->
  closures W !! closure wr = Some th ->
  strict th = false \/ 0 < limit th ->
  exists W1 W2 p,
    throttled wr now a W = Some (W1, Normal p) /\
    promises W1 !! p = Some Pending /\
    abort wr W1 = Some W2 /\
    promises W2 !! p = Some (Rejected AbortError) /\
    fire (length (timers W)) W2 = None /\
    queueSize wr W2 = Some 0%nat.
Proof.
  intros Hreach Hon Hth Hlim.
  destruct (reachable_inv _ Hreach) as [Hok _ _ _ _ _].
  destruct (throttled_enqueues wr now a W th Hok Hon Hth Hlim)
    as (W1 & d & th1 & Hcall & Hd & Hth1 & _ & Hts & Hps).
  pose proof (lookup_lt_Some _ _ _ Hth1) as Hlt.
  assert (Hp : promises W1 !! length (promises W) = Some Pending).
  { rewrite Hps, lookup_app_r, Nat.sub_diag by done. done. }
  eexists W1, _, (length (promises W)). split; [done|]. split; [done|].
  unfold abort. rewrite Hth1, abort_loop. split; [done|].
  unfold fire, queueSize. simpl.
  rewrite list_lookup_insert_eq by done. simpl.
  rewrite reject_all_lookup, clear_all_lookup, Hp.
  rewrite !decide_True.
  - by destruct (timers W1 !! length (timers W)).
  - unfold Map_keys. rewrite fmap_app. apply elem_of_app. right. by left.
  - rewrite fmap_app. apply elem_of_app. right. by left.
Qed.

End ReachableFacts.

(** * [inRange] of [test/utils.ts] *)

Section InRange.
Import Utils.

(** X22.  [inRange] takes two bounds that are numbers or bigints in either
    order: swapping [start] and [end] does not change what it returns,
    whatever [number] is (a [TypeError] for a [number] that is neither
    included).  A bound that is [undefined] is another matter: as [start]
    it stands for 0, as [end] it is a [TypeError]. *)
Theorem inRange_symmetric n s e :
  isNumberOrBigInt s = true -> isNumberOrBigInt e = true ->
  inRange n (Some s) e = inRange n (Some e) s.
Proof.
  unfold inRange, le, lt, min, max, lt. simpl.
  destruct n as [[]| |], s as [[]| |], e as [[]| |]; simpl; try done;
    intros _ _;
    repeat (case_bool_decide; simpl; try done); try lia;
    f_equal; repeat (case_bool_decide; simpl; try done); lia.
Qed.

(** An [undefined] bound, with [number] 5 and the other bound 10: as [start]
    it is replaced by 0 and 5 is in range, as [end] it makes [inRange]
    throw. *)
Example inRange_undefined_bound :
  inRange (Number (Finite 5)) None (Number (Finite 10)) = Some true /\
  inRange (Number (Finite 5)) (Some (Number (Finite 10))) Other = None.
Proof. split; reflexivity. Qed.

(** X23.  On finite numbers and bigints [inRange] is the closed interval
    between the smaller and the larger bound; without [start] the bound is
    0. *)
Theorem inRange_between n s e zn zs ze :
  numeric n = Finite zn -> numeric s = Finite zs -> numeric e = Finite ze ->
  inRange n (Some s) e =
    Some (bool_decide (Z.min zs ze <= zn <= Z.max zs ze)) /\
  inRange n None e = Some (bool_decide (Z.min 0 ze <= zn <= Z.max 0 ze)).
Proof.
  unfold inRange, le, lt, min, max, lt. simpl.
  destruct n as [[]| |], s as [[]| |], e as [[]| |]; simpl; try done;
    intros; simplify_eq; split; f_equal;
    repeat (case_bool_decide; simpl; try done); lia.
Qed.

(** X24.  [inRange] throws exactly when one of its arguments is neither a
    number nor a bigint, and is false as soon as one of them is [NaN]. *)
Theorem inRange_errors n s e :
  (inRange n (Some s) e = None <->
   isNumberOrBigInt n && isNumberOrBigInt s && isNumberOrBigInt e = false) /\
  (isNumberOrBigInt n && isNumberOrBigInt s && isNumberOrBigInt e = true ->
   numeric n = NaN \/ numeric s = NaN \/ numeric e = NaN ->
   inRange n (Some s) e = Some false).
Proof.
  unfold inRange, le, lt, min, max, lt. simpl.
  destruct n as [[]| |], s as [[]| |], e as [[]| |]; simpl;
    (split; [split; intros; done|]); intros Hnum [?|[?|?]]; simplify_eq;
    try done; f_equal; rewrite ?andb_false_r; try done;
    repeat (case_bool_decide; simpl; try done).
Qed.

End InRange.

Lemma inRange_symmetric_witness :
  Utils.inRange (Utils.Number (Finite 45)) (Some (Utils.BigInt 50))
                (Utils.Number (Finite 40)) =
  Utils.inRange (Utils.Number (Finite 45)) (Some (Utils.Number (Finite 40)))
                (Utils.BigInt 50).
Proof.
  apply (inRange_symmetric (Utils.Number (Finite 45)) (Utils.BigInt 50)
           (Utils.Number (Finite 40))); reflexivity.
Defined.

Lemma inRange_between_witness :
  Utils.inRange (Utils.Number (Finite 45)) (Some (Utils.BigInt 50))
                (Utils.Number (Finite 40)) = Some true /\
  Utils.inRange (Utils.Number (Finite 45)) None (Utils.Number (Finite 40))
    = Some false.
Proof.
  destruct (inRange_between (Utils.Number (Finite 45)) (Utils.BigInt 50)
              (Utils.Number (Finite 40)) 45 50 40) as [H1 H2];
    [reflexivity..|].
  split; [exact H1|exact H2].
Defined.

(** * The delays the engine gives to [setTimeout] *)

Section EngineDelays.
Context {Arg Val Exn : Type}.
Implicit Types (W : World Arg Val Exn) (wr : Wrapper Arg Val Exn).
Implicit Types (th : Throttle) (q : Map) (nows ds : list Z).

(** The calculators do not look at the queue. *)
Lemma getDelay_with_queue q now th :
  getDelay now (with_queue q th) =
  (fun r => (r.1, with_queue q r.2)) <$> getDelay now th.
Proof.
  unfold getDelay. simpl. destruct (strict th).
  - unfold strictDelay. simpl. case_decide; [done|].
    destruct (strictTicks th); [done|]. by case_decide.
  - unfold windowedDelay. simpl. by repeat case_decide.
Qed.

Lemma delayRun_with_queue q nows th :
  delayRun nows (with_queue q th) =
  (fun r => (r.1, with_queue q r.2)) <$> delayRun nows th.
Proof.
  revert th. induction nows as [|now nows IH]; intros th; [done|].
  simpl. rewrite getDelay_with_queue.
  destruct (getDelay now th) as [[d th1]|]; [|done]. simpl.
  rewrite IH. by destruct (delayRun nows th1) as [[ds th2]|].
Qed.

Lemma delayRun_windowed nows th :
  strict th = false -> delayRun nows th = Some (windowedRun nows th).
Proof.
  revert th. induction nows as [|now nows IH]; intros th Hs; [done|].
  simpl. unfold getDelay. rewrite Hs.
  destruct (windowedDelay now th) as [d th1] eqn:Hd.
  rewrite IH.
  - by destruct (windowedRun nows th1).
  - unfold windowedDelay in Hd. repeat case_decide; by simplify_eq/=.
Qed.

Lemma delayRun_strict nows th :
  strict th = true ->
  strictRun nows th =
  (fun r => (zip_with Z.add nows r.1, r.2)) <$> delayRun nows th.
Proof.
  revert th. induction nows as [|now nows IH]; intros th Hs; [done|].
  simpl. unfold getDelay. rewrite Hs.
  destruct (strictDelay now th) as [[d th1]|] eqn:Hd; [|done].
  rewrite IH.
  - by destruct (delayRun nows th1) as [[ds th2]|].
  - apply strictDelay_frame in Hd as (_ & _ & -> & _). done.
Qed.

Lemma delayRun_length nows th ds th' :
  delayRun nows th = Some (ds, th') -> length ds = length nows.
Proof.
  revert th ds. induction nows as [|now nows IH]; intros th ds H.
  - by simplify_eq/=.
  - simpl in H. destruct (getDelay now th) as [[d th1]|]; [|done].
    destruct (delayRun nows th1) as [[ds' th2]|] eqn:E; [|done].
    simplify_eq/=. f_equal. by eapply IH.
Qed.

(** Calls through an enabled wrapper set one timer each, in the order of
    the calls, with the delays that the calculator of the engine computes
    for the readings of the clock, one after the other. *)
Lemma calls_delays wr nows a W th ds th' :
  world_ok W -> isEnabled wr = true ->
  closures W !! closure wr = Some th ->
  delayRun nows th = Some (ds, th') ->
  exists W' new q',
    calls wr nows a W = Some W' /\ world_ok W' /\
    timers W' = timers W ++ new /\
    timer_delays new = Some <$> ds /\
    closures W' !! closure wr = Some (with_queue q' th').
Proof.
  intros Hok Hon. revert W th ds th' Hok.
  induction nows as [|now nows IH]; intros W th ds th' Hok Hth Hrun.
  - simplify_eq/=. exists W, [], (queue th'). rewrite app_nil_r.
    repeat split; try done. by destruct th'.
  - simpl in Hrun.
    destruct (getDelay now th) as [[d th1]|] eqn:Hd; [|done].
    destruct (delayRun nows th1) as [[ds' th2]|] eqn:Hrest; [|done].
    simplify_eq/=.
    destruct (throttled wr now a W) as [[W1 r]|] eqn:Hcall;
      [|unfold throttled in Hcall; by rewrite Hon, Hth, Hd in Hcall].
    pose proof (throttled_ok _ _ _ _ _ _ Hok Hcall) as Hok1.
    pose proof (lookup_lt_Some _ _ _ Hth) as Hlt.
    unfold throttled in Hcall. rewrite Hon, Hth, Hd in Hcall.
    simplify_eq/=.
    set (Q := Map_set (length (timers W)) (length (promises W)) (queue th1))
      in *.
    destruct (IH _ (with_queue Q th1) ds' (with_queue Q th') Hok1)
      as (W' & new & q' & Hcalls & Hok' & Hts & Hms & Hth').
    { simpl. by apply list_lookup_insert_eq. }
    { by rewrite delayRun_with_queue, Hrest. }
    exists W', (Some (mkTimer d (closure wr) (function_ wr) a
                        (length (promises W))) :: new), q'.
    simpl in *. rewrite Hts, <- app_assoc. repeat split; try done.
    unfold timer_delays in *. simpl. by rewrite Hms.
Qed.

(** X9.  [queueSize] counts the calls: after [n] calls through an enabled
    wrapper, none of which has fired, the queue of its closure holds [n]
    entries more than before. *)
Theorem queueSize_counts_calls wr nows a W th :
  world_ok W -> isEnabled wr = true ->
  closures W !! closure wr = Some th ->
  strict th = false \/ 0 < limit th ->
  exists W',
    calls wr nows a W = Some W' /\
    queueSize wr W = Some (Map_size (queue th)) /\
    queueSize wr W' = Some (Map_size (queue th) + length nows)%nat.
Proof.
  intros Hok Hon Hth Hlim.
  destruct (calls_queueSize wr nows a W th Hok Hon Hth Hlim)
    as (W' & Hcalls & _ & Hsize).
  exists W'. repeat split; [done| |done].
  unfold queueSize. by rewrite Hth.
Qed.

(** X19.  The delays that the timers of [n] calls carry are those of the
    calculator, and the closure is left in the state of the calculator. *)
Theorem calls_set_calculator_delays wr nows a W th ds th' :
  world_ok W -> isEnabled wr = true ->
  closures W !! closure wr = Some th ->
  delayRun nows th = Some (ds, th') ->
  exists W' new q',
    calls wr nows a W = Some W' /\
    timers W' = timers W ++ new /\
    timer_delays new = Some <$> ds /\
    closures W' !! closure wr = Some (with_queue q' th').
Proof.
  intros Hok Hon Hth Hrun.
  destruct (calls_delays wr nows a W th ds th' Hok Hon Hth Hrun)
    as (W' & new & q' & H1 & _ & H2 & H3 & H4).
  by exists W', new, q'.
Qed.

(** X20.  Strict mode, end to end: the timers that the calls through a
    strict engine set, from an empty remembered sequence, are due at times
    of which every window [[t, t + interval)] holds at most [limit]. *)
Theorem calls_strict_window_bound wr nows a W th :
  world_ok W -> isEnabled wr = true ->
  closures W !! closure wr = Some th ->
  strict th = true -> 0 < limit th -> 0 < interval th ->
  strictTicks th = [] ->
  exists W' new ds,
    calls wr nows a W = Some W' /\
    timers W' = timers W ++ new /\
    timer_delays new = Some <$> ds /\
    length ds = length nows /\
    forall t,
      Z.of_nat (length (in_window t (interval th) (zip_with Z.add nows ds)))
        <= limit th.
Proof.
  intros Hok Hon Hth Hs Hl Hi Hnil.
  destruct (strictRun_invariant nows th Hl Hnil)
    as (stamps & th1 & Hrun & _ & _ & _ & Hsp).
  pose proof (strictRun_length _ _ _ _ Hrun) as Hlen.
  rewrite delayRun_strict in Hrun by done.
  destruct (delayRun nows th) as [[ds th2]|] eqn:Hd; [|done].
  simpl in Hrun. assert (stamps = zip_with Z.add nows ds) as -> by congruence.
  destruct (calls_delays wr nows a W th ds th2 Hok Hon Hth Hd)
    as (W' & new & q' & H1 & _ & H2 & H3 & _).
  exists W', new, ds. repeat split; try done.
  - by eapply delayRun_length.
  - intros t.
    pose proof (spaced_window (Z.to_nat (limit th)) (interval th) _ t
                  ltac:(lia) Hi Hsp).
    lia.
Qed.

(** X21.  Windowed mode, end to end: the timers that the calls through a new
    windowed engine set are due at times of which every window [[t, t +
    interval)] holds at most [limit]. (The host runs a timer whose delay is
    negative at once, later than it is due.) *)
Theorem calls_windowed_window_bound wr nows a W th :
  world_ok W -> isEnabled wr = true ->
  closures W !! closure wr = Some th ->
  strict th = false -> 0 < limit th -> 0 < interval th ->
  activeCount th = 0 ->
  exists W' new,
    calls wr nows a W = Some W' /\
    timers W' = timers W ++ new /\
    timer_delays new = Some <$> (windowedRun nows th).1 /\
    forall t,
      Z.of_nat (length (in_window t (interval th)
                  (zip_with Z.add nows (windowedRun nows th).1)))
        <= limit th.
Proof.
  intros Hok Hon Hth Hs Hl Hi Hac.
  pose proof (delayRun_windowed nows th Hs) as Hd.
  destruct (windowedRun nows th) as [ds th2] eqn:Hrun.
  destruct (calls_delays wr nows a W th ds th2 Hok Hon Hth Hd)
    as (W' & new & q' & H1 & _ & H2 & H3 & _).
  exists W', new. repeat split; try done.
  intros t.
  destruct (windowedRun_invariant nows th Hl Hi Hac)
    as (_ & _ & _ & _ & _ & _ & Hwin).
  specialize (Hwin t). unfold windowedStamps in Hwin.
  by rewrite Hrun in Hwin.
Qed.

End EngineDelays.

Lemma calls_set_calculator_delays_witness :
  exists W' new q',
    calls first_wrapper [1000; 1000] tt (world_1_100 false) = Some W' /\
    timers W' = timers (world_1_100 false) ++ new /\
    timer_delays new = Some <$> [0; 100] /\
    closures W' !! 0%nat =
      Some (with_queue q' (mkThrottle 1 100 false [] 1100 1 [])).
Proof.
  apply (calls_set_calculator_delays first_wrapper [1000; 1000] tt
           (world_1_100 false) (fresh_throttle 1 100 false));
    [compute_done|reflexivity|reflexivity|reflexivity].
Defined.

Lemma calls_strict_window_bound_witness :
  exists W' new ds,
    calls first_wrapper [1000; 1000] tt (world_1_100 true) = Some W' /\
    timers W' = timers (world_1_100 true) ++ new /\
    timer_delays new = Some <$> ds /\
    length ds = 2%nat /\
    forall t,
      Z.of_nat (length (in_window t 100 (zip_with Z.add [1000; 1000] ds)))
        <= 1.
Proof.
  apply (calls_strict_window_bound first_wrapper [1000; 1000] tt
           (world_1_100 true) (fresh_throttle 1 100 true));
    [compute_done|reflexivity..].
Defined.

Lemma calls_windowed_window_bound_witness :
  exists W' new,
    calls first_wrapper [1000; 1000] tt (world_1_100 false) = Some W' /\
    timers W' = timers (world_1_100 false) ++ new /\
    timer_delays new = Some <$> [0; 100] /\
    forall t,
      Z.of_nat (length (in_window t 100 (zip_with Z.add [1000; 1000] [0; 100])))
        <= 1.
Proof.
  apply (calls_windowed_window_bound first_wrapper [1000; 1000] tt
           (world_1_100 false) (fresh_throttle 1 100 false));
    [compute_done|reflexivity..].
Defined.

(** * The theorems at concrete inputs *)

Lemma world_1_100_reachable s : reachable (world_1_100 s).
Proof.
  eapply (reach_pThrottle (options_1_100 s)); [apply reach_empty|reflexivity].
Qed.

Lemma pending_world_reachable : reachable pending_world.
Proof.
  eapply (reach_throttled first_wrapper 1000 tt);
    [apply (world_1_100_reachable false)|reflexivity].
Qed.

Lemma throwing_world_reachable : reachable throwing_world.
Proof.
  eapply (reach_throttled second_wrapper 1000 tt);
    [apply (world_1_100_reachable false)|reflexivity].
Qed.

Lemma pending_world_queued : queued pending_world 0 0 0.
Proof. exists pending_closure. split; [reflexivity|by left]. Qed.

Lemma strictTicks_length_bound_witness :
  exists stamps th',
    strictRun pause_nows strict_10_100 = Some (stamps, th') /\
    limit th' = 10 /\
    Z.of_nat (length (strictTicks th')) = 10.
Proof.
  apply (strictTicks_length_bound pause_nows strict_10_100);
    [reflexivity|simpl; lia].
Defined.

Lemma strict_stamps_recurrence_witness :
  exists stamps th',
    strictRun pause_nows strict_10_100 = Some (stamps, th') /\
    length stamps = length pause_nows /\
    stamped 10 100 pause_nows stamps.
Proof.
  apply (strict_stamps_recurrence pause_nows strict_10_100); reflexivity.
Defined.

Lemma strict_stamps_nondecreasing_witness :
  exists stamps th',
    strictRun [1000; 1040] strict_10_100 = Some (stamps, th') /\
    nondecreasing stamps /\
    nondecreasing (strictTicks th') /\
    forall k now r,
      [1000; 1040] !! k = Some now -> stamps !! k = Some r -> now <= r.
Proof.
  apply (strict_stamps_nondecreasing [1000; 1040] strict_10_100);
    [reflexivity|simpl; lia|reflexivity|].
  intros [|[|i]] [|[|j]] a b Hij Ha Hb; simplify_eq/=; lia.
Defined.

Lemma strict_burst_witness :
  exists th',
    strictRun (replicate 12 1000) strict_10_100 =
    Some ((fun k => 1000 + Z.of_nat k / 10 * 100) <$> seq 0 12, th').
Proof.
  apply (strict_burst 12 1000 strict_10_100);
    [reflexivity|simpl; lia|reflexivity].
Defined.

Lemma windowed_count_bounds_witness :
  limit (windowedRun [1000; 1050; 1050] windowed_2_100).2 = 2 /\
  interval (windowedRun [1000; 1050; 1050] windowed_2_100).2 = 100 /\
  0 <= activeCount (windowedRun [1000; 1050; 1050] windowed_2_100).2 <= 2 /\
  ([1000; 1050; 1050] ≠ [] ->
   1 <= activeCount (windowedRun [1000; 1050; 1050] windowed_2_100).2).
Proof.
  apply (windowed_count_bounds [1000; 1050; 1050] windowed_2_100);
    [reflexivity|simpl; lia].
Defined.

Lemma windowed_call_in_window_witness :
  1050 + -50 = currentTick (windowedDelay 1050 windowed_after_one).2 /\
  currentTick (windowedDelay 1050 windowed_after_one).2
    <= earliest_run 1050 (-50)
    <= currentTick (windowedDelay 1050 windowed_after_one).2 + 100.
Proof.
  pose proof (windowed_call_in_window 1050 windowed_after_one) as H.
  change (windowedDelay 1050 windowed_after_one)
    with (-50, (windowedDelay 1050 windowed_after_one).2) in H at 1.
  destruct H as (H1 & H2 & _); [simpl; lia|].
  split; [exact H1|exact H2].
Defined.

Lemma windowed_window_bound_witness :
  nondecreasing (windowedStamps [1000; 1050; 1050; 1050] windowed_2_100) /\
  forall t,
    Z.of_nat (length (in_window t 100
                (windowedStamps [1000; 1050; 1050; 1050] windowed_2_100)))
      <= 2.
Proof.
  apply (windowed_window_bound [1000; 1050; 1050; 1050] windowed_2_100);
    reflexivity.
Defined.

Lemma windowed_burst_witness :
  (windowedRun (replicate 12 1000) windowed_2_100).1 =
  (fun k => Z.of_nat k / 2 * 100) <$> seq 0 12.
Proof.
  apply (windowed_burst 12 1000 windowed_2_100);
    [reflexivity|simpl; lia|reflexivity].
Defined.

Lemma queueSize_counts_calls_witness :
  exists W',
    calls first_wrapper (replicate 10 1000) tt (world_1_100 false) = Some W' /\
    queueSize first_wrapper (world_1_100 false) = Some 0%nat /\
    queueSize first_wrapper W' = Some 10%nat.
Proof.
  apply (queueSize_counts_calls first_wrapper (replicate 10 1000) tt
           (world_1_100 false) (fresh_throttle 1 100 false));
    [compute_done|reflexivity|reflexivity|by left].
Defined.

Lemma queued_call_is_pending_witness :
  promises pending_world !! 0%nat = Some Pending /\
  (forall c' t', queued pending_world c' t' 0 -> c' = 0%nat /\ t' = 0%nat) /\
  (forall c' p', queued pending_world c' 0 p' -> c' = 0%nat /\ p' = 0%nat).
Proof.
  apply (queued_call_is_pending pending_world 0 0 0);
    [apply pending_world_reachable|apply pending_world_queued].
Defined.

Lemma pending_promise_is_queued_witness :
  exists c t, queued pending_world c t 0.
Proof.
  apply (pending_promise_is_queued pending_world 0);
    [apply pending_world_reachable|reflexivity].
Defined.

Lemma live_timer_is_queued_witness :
  queued pending_world 0 0 0 /\ is_Some (fire 0%nat pending_world).
Proof.
  apply (live_timer_is_queued pending_world 0 returning_timer);
    [apply pending_world_reachable|reflexivity].
Defined.

Lemma fire_resolves_call_witness :
  exists W' th,
    fire 0%nat pending_world = Some (W', None) /\
    promises W' !! 0%nat = Some (Resolved 7) /\
    (forall p, p ≠ 0%nat -> promises W' !! p = promises pending_world !! p) /\
    closures pending_world !! 0%nat = Some th /\
    closures W' !! 0%nat = Some (with_queue (Map_delete 0 (queue th)) th) /\
    S (Map_size (Map_delete 0 (queue th))) = Map_size (queue th).
Proof.
  apply (fire_resolves_call pending_world 0 returning_timer 7);
    [apply pending_world_reachable|reflexivity|reflexivity].
Defined.

Lemma fire_throw_leaves_call_queued_witness :
  exists W',
    fire 0%nat throwing_world = Some (W', Some "boom"%string) /\
    reachable W' /\
    queued W' 0 0 0 /\
    promises W' !! 0%nat = Some Pending /\
    fire 0%nat W' = None.
Proof.
  apply (fire_throw_leaves_call_queued throwing_world 0 throwing_timer);
    [apply throwing_world_reachable|reflexivity|reflexivity].
Defined.

Lemma abort_settles_closure_witness :
  exists W',
    abort first_wrapper pending_world = Some W' /\
    (forall t p, (t, p) ∈ queue pending_closure ->
       promises W' !! p = Some (Rejected AbortError) /\ fire t W' = None) /\
    (forall t p, ~ queued W' (closure first_wrapper) t p) /\
    (forall c t p, c ≠ closure first_wrapper ->
       queued W' c t p <-> queued pending_world c t p).
Proof.
  apply (abort_settles_closure first_wrapper pending_world pending_closure);
    [apply pending_world_reachable|reflexivity].
Defined.

Lemma abort_idempotent_witness :
  exists W',
    abort first_wrapper pending_world = Some W' /\
    abort first_wrapper W' = Some W'.
Proof.
  eexists. split; [reflexivity|].
  apply (abort_idempotent first_wrapper pending_world). reflexivity.
Defined.

Lemma call_then_fire_resolves_witness :
  exists W1 W2 p,
    throttled first_wrapper 1000 tt (world_1_100 false)
      = Some (W1, Normal p) /\
    promises (world_1_100 false) !! p = None /\
    promises W1 !! p = Some Pending /\
    fire 0%nat W1 = Some (W2, None) /\
    promises W2 !! p = Some (Resolved 7) /\
    queueSize first_wrapper W2 = queueSize first_wrapper (world_1_100 false).
Proof.
  apply (call_then_fire_resolves first_wrapper 1000 tt (world_1_100 false)
           (fresh_throttle 1 100 false) 7);
    [apply world_1_100_reachable|reflexivity|reflexivity|by left|reflexivity].
Defined.

Lemma call_then_abort_rejects_witness :
  exists W1 W2 p,
    throttled first_wrapper 1000 tt (world_1_100 true)
      = Some (W1, Normal p) /\
    promises W1 !! p = Some Pending /\
    abort first_wrapper W1 = Some W2 /\
    promises W2 !! p = Some (Rejected AbortError) /\
    fire 0%nat W2 = None /\
    queueSize first_wrapper W2 = Some 0%nat.
Proof.
  apply (call_then_abort_rejects first_wrapper 1000 tt (world_1_100 true)
           (fresh_throttle 1 100 true));
    [apply world_1_100_reachable|reflexivity|reflexivity|right; reflexivity].
Defined.
